(** * Package-upgrade scripts: patch-group partitioning and its glue

    A shallow embedding of the pure parts of
    [ansible/playbooks/package-upgrade/scripts]:

    - [patch_groups.py]: [get_hosts] (the bucketing loop and the reversal),
      [create_patch_groups], [create_patch_group_files];
    - [begin_patch.py]: [ConfigManager.append_skip_file],
      [InventoryManager.count_patch_groups], [InventoryManager.validate_file],
      [InventoryManager.generate_and_move_patch_groups],
      [PlaybookRunner.process_retry_file], [PatchManager.validate_region],
      [PatchManager.get_exvars], [PatchManager.get_creds] and the selection
      of patch groups in [PatchManager.run_normal_mode];
    - [package_list.py]: [generate_package_yaml];
    - [gcs_upload.py]: the bucket [upload_folder_to_gcs] validates.

    Python strings are sequences of characters; they are modelled as
    [list ascii], an [ascii] standing for a code point below 256.  Python
    dictionaries keep insertion order and iterate in it, so they are
    modelled as association lists. *)

From Stdlib Require Import Ascii String DecimalString DecimalNat Decimal.
From stdpp Require Import base decidable option list list_numbers strings gmap.

Local Open Scope char_scope.
Local Open Scope nat_scope.

(** ** Strings *)

Abbreviation str := (list ascii).

(** A string literal of the source. *)
Definition lit (s : string) : str := list_ascii_of_string s.

(** [str(n)] for a non-negative integer, as used by an f-string. *)
Definition str_of_nat (n : nat) : str :=
  lit (NilEmpty.string_of_uint (Nat.to_uint n)).

(** ** Ordered dictionaries *)

Module Dict.
Section dict.
Context {K V : Type} `{EqDecision K}.

(** [d.get(k)] returning [None] for a missing key. *)
Fixpoint get (k : K) (d : list (K * V)) : option V :=
  match d with
  | [] => None
  | (k', v) :: d' => if decide (k = k') then Some v else get k d'
  end.

(** [d[k] = f(d[k])] on a [defaultdict] whose factory returns [dflt]: an
    existing entry is updated in place, a missing one is created at the
    end (with [f dflt], whatever [f] does). *)
Fixpoint update (dflt : V) (f : V → V) (k : K) (d : list (K * V)) : list (K * V) :=
  match d with
  | [] => [(k, f dflt)]
  | (k', v) :: d' =>
      if decide (k = k') then (k', f v) :: d' else (k', v) :: update dflt f k d'
  end.

(** [d.keys()] and [d.values()], in insertion order. *)
Definition keys (d : list (K * V)) : list K := d.*1.

Definition values (d : list (K * V)) : list V := d.*2.
End dict.
End Dict.

(** ** patch_groups.py *)

(** [f"pg{n}"] *)
Definition pg (n : nat) : str := lit "pg" ++ str_of_nat n.

Definition sharddb : str := lit "be-sharddb".

(** [patch_groups[k].append(h)] and [patch_groups[k].extend(hs)] on the
    [defaultdict(list)]. *)
Definition dd_append (k : str) (h : str) (d : list (str * list str)) :=
  Dict.update [] (λ l, l ++ [h]) k d.
Definition dd_extend (k : str) (hs : list str) (d : list (str * list str)) :=
  Dict.update [] (λ l, l ++ hs) k d.

Definition non_sharddb_roles (hosts_by_role : list (str * list str)) :=
  filter (λ rh, rh.1 ≠ sharddb) hosts_by_role.

(** [max(len(hosts) for hosts in non_sharddb_roles.values()) if non_sharddb_roles else 0] *)
Definition max_hosts (roles : list (str * list str)) : nat :=
  match roles with
  | [] => 0
  | _ => max_list (length <$> Dict.values roles)
  end.

(** The body of the inner loop, for one role at index [i]:
    [if i < len(hosts): patch_groups[f"pg{i+1}"].append(hosts[i])]. *)
Definition deal_host (i : nat) (patch_groups : list (str * list str))
    (rh : str * list str) : list (str * list str) :=
  match rh.2 !! i with
  | Some h => dd_append (pg (i + 1)) h patch_groups
  | None => patch_groups
  end.

(** [for role, hosts in non_sharddb_roles.items(): ...] *)
Definition deal_round (roles : list (str * list str))
    (patch_groups : list (str * list str)) (i : nat) :=
  foldl (deal_host i) patch_groups roles.

(** [for i in range(max_hosts): ...] starting from the empty [defaultdict]. *)
Definition round_robin (roles : list (str * list str)) : list (str * list str) :=
  foldl (deal_round roles) [] (seq 0 (max_hosts roles)).

(** The special case of the reserved role. *)
Definition place_sharddb (hosts_by_role patch_groups : list (str * list str)) :=
  match Dict.get sharddb hosts_by_role with
  | None => patch_groups
  | Some sharddb_hosts =>
      if decide (length sharddb_hosts = 1) then
        dd_extend (lit "pg1") sharddb_hosts patch_groups
      else
        let mid := length sharddb_hosts `div` 2 in
        dd_extend (lit "pg1") (drop mid sharddb_hosts)
          (dd_extend (lit "pg2") (take mid sharddb_hosts) patch_groups)
  end.

Definition create_patch_groups (hosts_by_role : list (str * list str))
    : list (str * list str) :=
  place_sharddb hosts_by_role (round_robin (non_sharddb_roles hosts_by_role)).

(** The hosts at position [i] of the role lists long enough to have one, in
    role order. *)
Definition column (i : nat) (roles : list (str * list str)) : list str :=
  omap (λ rh, rh.2 !! i) roles.

(** The groups after dealing rounds [0 .. n-1]: group [i+1] is column [i]. *)
Definition dealt (roles : list (str * list str)) (n : nat) : list (str * list str) :=
  (λ i, (pg (i + 1), column i roles)) <$> seq 0 n.

(** The role lists with their first host removed. *)
Definition tails (roles : list (str * list str)) : list (str * list str) :=
  (λ rh, (rh.1, tail rh.2)) <$> roles.

(** *** get_hosts *)

(** An entry of the provider's JSON listing that carries labels: the
    instance name and its labels (a JSON object, in document order). *)
Record instance := { name : str; labels : list (str * str) }.

(** [s.startswith(p)] *)
Fixpoint startswith (s p : str) : bool :=
  match p, s with
  | [], _ => true
  | _ :: _, [] => false
  | c :: p', d :: s' => bool_decide (c = d) && startswith s' p'
  end.

(** [next((v for k, v in instance['labels'].items() if k.startswith('role')), None)] *)
Definition role_label (i : instance) : option str :=
  snd <$> head (filter (λ kv, startswith kv.1 (lit "role")) (labels i)).

(** [instance['labels'].get('region', 'unknown')] *)
Definition region_label (i : instance) : str :=
  default (lit "unknown") (Dict.get (lit "region") (labels i)).

(** The body of the listing loop:
    [if role: hosts_by_role_and_region[region][role].append(instance['name'])],
    on a [defaultdict] of [defaultdict(list)].  [if role] is false for [None]
    and for the empty string. *)
Definition bucket (roster : list (str * list (str * list str))) (i : instance)
    : list (str * list (str * list str)) :=
  match role_label i with
  | Some (c :: role) =>
      Dict.update [] (Dict.update [] (λ hosts, hosts ++ [name i]) (c :: role))
        (region_label i) roster
  | _ => roster
  end.

(** [for region in d: for role in d[region]: d[region][role].reverse()] *)
Definition reverse_hosts (roster : list (str * list (str * list str)))
    : list (str * list (str * list str)) :=
  (λ rb : str * list (str * list str),
     (rb.1, (λ rh : str * list str, (rh.1, reverse rh.2)) <$> rb.2)) <$> roster.

(** [get_hosts], from the parsed listing on. *)
Definition get_hosts (instances : list instance) : list (str * list (str * list str)) :=
  reverse_hosts (foldl bucket [] instances).

(** [roster[region][role]], [None] when either key is missing. *)
Definition roster_get (roster : list (str * list (str * list str)))
    (region role : str) : option (list str) :=
  Dict.get region roster ≫= Dict.get role.

(** The instances the loop files under [region] and [role]. *)
Definition filed_under (region role : str) (i : instance) : Prop :=
  region_label i = region ∧ role_label i = Some role ∧ role ≠ [].

#[global] Instance filed_under_dec region role i : Decision (filed_under region role i).
Proof. unfold filed_under. apply _. Defined.

(** In the words of the specification: a label key that starts with [role]. *)
Definition role_key (key : str) : Prop := ∃ suffix, key = lit "role" ++ suffix.

(** In the words of the specification: the role of an instance is the
    value of the first of its labels whose key starts with [role]. *)
Definition selects_role (i : instance) (role : str) : Prop :=
  ∃ before key after,
    labels i = before ++ (key, role) :: after
    ∧ role_key key
    ∧ Forall (λ kv, ¬ role_key kv.1) before.

(** In the words of the specification: the region of an instance is the
    value of its [region] label; [unknown] stands in when it has none. *)
Definition has_region (i : instance) (region : str) : Prop :=
  (∃ before after,
     labels i = before ++ (lit "region", region) :: after
     ∧ Forall (λ kv, kv.1 ≠ lit "region") before)
  ∨ (Forall (λ kv, kv.1 ≠ lit "region") (labels i) ∧ region = lit "unknown").

(** The instances of a region and a role, in the words of the
    specification; an empty role value selects no role. *)
Definition listed_under (region role : str) (i : instance) : Prop :=
  has_region i region ∧ selects_role i role ∧ role ≠ [].

(** A list as a dictionary entry: no entry for no host. *)
Definition entry_of (hosts : list str) : option (list str) :=
  match hosts with [] => None | _ => Some hosts end.

(** ** Regular expressions

    The two patterns of [begin_patch.py] are sequences of single characters,
    character classes and greedy [+] repetitions of a class. *)

Inductive atom :=
  | One (p : ascii → bool)      (* one character of the class *)
  | Many1 (p : ascii → bool).   (* class+ , greedy *)

(** The backtracking matcher of [re]: match the pattern at the start of [s]
    and return what follows the match it finds first.  A greedy [+] first
    tries to take one more character and falls back to stopping. *)
Fixpoint match_at (pat : list atom) (s : str) : option str :=
  match pat with
  | [] => Some s
  | One p :: pat' =>
      match s with
      | c :: s' => if p c then match_at pat' s' else None
      | [] => None
      end
  | Many1 p :: pat' =>
      (fix many (s : str) : option str :=
         match s with
         | c :: s' =>
             if p c then
               match many s' with
               | Some rest => Some rest
               | None => match_at pat' s'
               end
             else None
         | [] => None
         end) s
  end.

(** [re.findall(pat, s)] for a pattern that matches no empty string: scan
    from the left, and after a match resume where it ended ([skip] counts
    the characters of a match still to step over). *)
Fixpoint findall_from (pat : list atom) (skip : nat) (s : str) : list str :=
  match s with
  | [] => []
  | _ :: s' =>
      match skip with
      | S k => findall_from pat k s'
      | 0 =>
          match match_at pat s with
          | Some rest =>
              let n := length s - length rest in
              take n s :: findall_from pat (n - 1) s'
          | None => findall_from pat 0 s'
          end
      end
  end.

Definition findall (pat : list atom) (s : str) : list str := findall_from pat 0 s.

Definition is_char (c : ascii) : ascii → bool := λ d, bool_decide (d = c).

(** [[a-z]] *)
Definition is_lower (c : ascii) : bool :=
  bool_decide (97 ≤ nat_of_ascii c ≤ 122).

(** [\d] on a [str] pattern is a Unicode decimal digit; below code point 256
    these are [0-9]. *)
Definition is_digit (c : ascii) : bool :=
  bool_decide (48 ≤ nat_of_ascii c ≤ 57).

(** *** begin_patch.py: validate_region *)

(** What a call does to the process: it returns, or it prints and exits. *)
Inductive outcome :=
  | Returns
  | Exits (printed : list str) (code : nat).

(** [r'^[a-z]+-[a-z]+\d+'], used with [re.match], which tries the start of
    the string only, where [^] holds. *)
Definition region_pattern : list atom :=
  [Many1 is_lower; One (is_char "-"); Many1 is_lower; Many1 is_digit].

(** [if not re.match(region_pattern, region)]: three lines are printed and
    the process exits with code 1; otherwise the method returns. *)
Definition validate_region (region : str) : outcome :=
  match match_at region_pattern region with
  | Some _ => Returns
  | None =>
      Exits [ lit "Invalid region format: " ++ region;
              lit "Region should be in the format: <geography>-<region><number>";
              lit "Example: us-central1" ] 1
  end.

(** The longest prefix of characters of a class, and the rest. *)
Fixpoint span (p : ascii → bool) (s : str) : str * str :=
  match s with
  | c :: s' => if p c then let '(w, r) := span p s' in (c :: w, r) else ([], s)
  | [] => ([], [])
  end.

(** [stops p r]: a run of [p] characters cannot extend into [r]. *)
Definition stops (p : ascii → bool) (r : str) : Prop :=
  match r with
  | [] => True
  | c :: _ => p c = false
  end.

(** Following the spec's words, the format [<geography>-<region><number>]:
    a lowercase word, a hyphen, a lowercase word, then digits, and nothing
    else. *)
Definition gcp_region_format (s : str) : bool :=
  let '(geography, r1) := span is_lower s in
  match r1 with
  | c :: r2 =>
      let '(region, number) := span is_lower r2 in
      bool_decide (c = "-") && bool_decide (geography ≠ [])
      && bool_decide (region ≠ []) && bool_decide (number ≠ [])
      && forallb is_digit number
  | [] => false
  end.

(** *** patch_groups.py: create_patch_group_files, and its reader *)

Definition nl : ascii := "010".

(** The strings passed to [f.write], in order, for one group. *)
Definition group_writes (gh : str * list str) : list str :=
  [gh.1 ++ lit ":" ++ [nl]; lit "  hosts:" ++ [nl]]
  ++ ((λ host, lit "    " ++ host ++ lit ":" ++ [nl]) <$> gh.2).

(** The content of [patch-groups-{region}.yaml]. *)
Definition create_patch_group_files (patch_groups : list (str * list str)) : str :=
  concat (concat (group_writes <$> patch_groups)).

(** [r'pg\d+:'] *)
Definition pg_pattern : list atom :=
  [One (is_char "p"); One (is_char "g"); Many1 is_digit; One (is_char ":")].

(** [count_patch_groups], on the content of the file. *)
Definition count_patch_groups (content : str) : nat :=
  length (findall pg_pattern content).

(** The line written for a host. *)
Definition host_line (host : str) : str := lit "    " ++ host ++ lit ":" ++ [nl].

(** The class of an atom, and patterns none of whose atoms accepts [c]. *)
Definition atom_class (a : atom) : ascii → bool :=
  match a with One p | Many1 p => p end.

Definition rejects (c : ascii) (pat : list atom) : Prop :=
  Forall (λ a, atom_class a c = false) pat.

(** The lines of a group, without their line feeds. *)
Definition group_lines (gh : str * list str) : list str :=
  [gh.1 ++ lit ":"; lit "  hosts:"] ++ ((λ host, lit "    " ++ host ++ lit ":") <$> gh.2).

(** The occurrences of [pg<digits>:] in the lines written for hosts. *)
Definition host_line_matches (patch_groups : list (str * list str)) : nat :=
  sum_list ((λ host, count_patch_groups (host_line host)) <$> concat (Dict.values patch_groups)).

(** ** Whitespace, [strip] and [split] *)

Definition cr : ascii := "013".

(** The characters [str.strip()] removes, below code point 256: tab to
    carriage return, the separators 28 to 31, space, NEL and the
    no-break space. *)
Definition is_space (c : ascii) : bool :=
  let n := nat_of_ascii c in
  bool_decide (9 ≤ n ≤ 13) || bool_decide (28 ≤ n ≤ 32)
  || bool_decide (n = 133) || bool_decide (n = 160).

Fixpoint lstrip (s : str) : str :=
  match s with
  | c :: s' => if is_space c then lstrip s' else s
  | [] => []
  end.

Fixpoint rstrip (s : str) : str :=
  match s with
  | c :: s' =>
      match rstrip s' with
      | [] => if is_space c then [] else [c]
      | r => c :: r
      end
  | [] => []
  end.

(** [s.strip()] *)
Definition strip (s : str) : str := rstrip (lstrip s).

(** [s.split(sep)] for a one-character separator. *)
Fixpoint split (sep : ascii) (s : str) : list str :=
  match s with
  | [] => [[]]
  | c :: s' =>
      if bool_decide (c = sep) then [] :: split sep s'
      else match split sep s' with
           | w :: ws => (c :: w) :: ws
           | [] => [[c]]
           end
  end.

(** *** package_list.py: generate_package_yaml *)

(** Iterating over [set(l)] yields the distinct elements of [l], each once,
    in an order the language leaves open. *)
Definition set_iteration (l order : list str) : Prop :=
  NoDup order ∧ ∀ x, x ∈ order ↔ x ∈ l.

(** [packages = [pkg.strip() for pkg in set(packages.split(','))]]: the
    lists that can be handed to [write_packages_to_yaml]. *)
Definition generate_package_yaml (packages : str) (written : list str) : Prop :=
  ∃ order, set_iteration (split "," packages) order ∧ written = strip <$> order.

(** *** begin_patch.py: append_skip_file *)

(** Reading in text mode: a carriage return, with the line feed that may
    follow it, is handed over as one line feed.  [after_cr] tells that the
    previous character was a carriage return. *)
Fixpoint newlines_from (after_cr : bool) (s : str) : str :=
  match s with
  | [] => []
  | c :: s' =>
      if bool_decide (c = cr) then nl :: newlines_from true s'
      else if bool_decide (c = nl) then
        if after_cr then newlines_from false s' else nl :: newlines_from false s'
      else c :: newlines_from false s'
  end.

Definition universal_newlines (s : str) : str := newlines_from false s.

(** [for line in f]: the lines, each with its line feed; the last one has
    none when the text does not end with one. *)
Fixpoint readlines (s : str) : list str :=
  match s with
  | [] => []
  | c :: s' =>
      if bool_decide (c = nl) then [nl] :: readlines s'
      else match readlines s' with
           | l :: ls => (c :: l) :: ls
           | [] => [[c]]
           end
  end.

(** [line.strip() for line in f] on a file holding [text]. *)
Definition stripped_lines (text : str) : list str :=
  strip <$> readlines (universal_newlines text).

(** [existing_hosts] after the file, when there is one, has been read. *)
Definition read_skip_file (content : option str) : gset str :=
  match content with
  | Some text => list_to_set (stripped_lines text)
  | None => ∅
  end.

(** The body of the loop over [hostnames]; the state is the text appended
    so far and [existing_hosts]. *)
Definition skip_step (st : str * gset str) (hostname : str) : str * gset str :=
  let hostname := strip hostname in
  if decide (hostname ∈ st.2) then st
  else (st.1 ++ hostname ++ [nl], {[hostname]} ∪ st.2).

(** [append_skip_file]: the content of the skip file after the call, from
    its content before ([None] when the file does not exist). *)
Definition append_skip_file (content : option str) (hostnames : list str) : str :=
  default [] content ++ (foldl skip_step ([], read_skip_file content) hostnames).1.

(** The names a call writes, in order, when [existing] are the known ones. *)
Fixpoint skip_written (existing : gset str) (hostnames : list str) : list str :=
  match hostnames with
  | [] => []
  | hostname :: hostnames' =>
      if decide (strip hostname ∈ existing) then skip_written existing hostnames'
      else strip hostname :: skip_written ({[strip hostname]} ∪ existing) hostnames'
  end.

(** A text that is empty or ends with a line feed. *)
Definition ends_nl (text : str) : Prop := text = [] ∨ ∃ x, text = x ++ [nl].

(** How many lines of a file, once stripped, are [x]. *)
Definition line_count (x : str) (text : str) : nat :=
  length (filter (λ l, l = x) (stripped_lines text)).

(** The number of groups the reserved role needs: none when it is absent,
    [pg1] for one host, [pg1] and [pg2] otherwise. *)
Definition sharddb_groups (hosts_by_role : list (str * list str)) : nat :=
  match Dict.get sharddb hosts_by_role with
  | None => 0
  | Some sharddb_hosts => if decide (length sharddb_hosts = 1) then 1 else 2
  end.

(** [f"patch-groups-{region}.yaml"] *)
Definition patch_group_filename (region : str) : str :=
  lit "patch-groups-" ++ region ++ lit ".yaml".

(** [generate_patch_groups], from the parsed listing on: the files written
    (name and content), one per region of the roster, in roster order. *)
Definition generate_patch_groups (instances : list instance) : list (str * str) :=
  (λ rb : str * list (str * list str),
     (patch_group_filename rb.1, create_patch_group_files (create_patch_groups rb.2)))
  <$> get_hosts instances.

(** [if role] holds for an instance: it has a role label with a value. *)
Definition has_role (i : instance) : Prop :=
  match role_label i with
  | Some (_ :: _) => True
  | _ => False
  end.

#[global] Instance has_role_dec i : Decision (has_role i).
Proof. unfold has_role. destruct (role_label i) as [[|??]|]; apply _. Defined.

(** A role-to-hosts dictionary with distinct, non-empty role names and no
    empty host list. *)
Definition roles_wf (by_role : list (str * list str)) : Prop :=
  NoDup (Dict.keys by_role) ∧ Forall (λ rh, rh.1 ≠ [] ∧ rh.2 ≠ []) by_role.

(** A roster with distinct regions, each with at least one role. *)
Definition roster_wf (roster : list (str * list (str * list str))) : Prop :=
  NoDup (Dict.keys roster) ∧ Forall (λ rb, rb.2 ≠ [] ∧ roles_wf rb.2) roster.

(** All the host names of a roster. *)
Definition roster_hosts (roster : list (str * list (str * list str))) : list str :=
  concat ((λ by_role, concat (Dict.values by_role)) <$> Dict.values roster).

(** *** begin_patch.py: the playbook runs of run_normal_mode *)

(** [s.strip(chars)], for the characters of a class. *)
Fixpoint lstrip_with (p : ascii → bool) (s : str) : str :=
  match s with
  | c :: s' => if p c then lstrip_with p s' else s
  | [] => []
  end.

Fixpoint rstrip_with (p : ascii → bool) (s : str) : str :=
  match s with
  | c :: s' =>
      match rstrip_with p s' with
      | [] => if p c then [] else [c]
      | r => c :: r
      end
  | [] => []
  end.

Definition strip_with (p : ascii → bool) (s : str) : str :=
  rstrip_with p (lstrip_with p s).

(** The characters stripped from [--grouplist]: the single and the double
    quote. *)
Definition is_quote (c : ascii) : bool :=
  bool_decide (c = "039") || bool_decide (c = "034").

(** [for i in range(1, n + 1)]: the patch groups [f"pg{i}"] handed to
    [run_patch_playbook], in order. *)
Definition patchgroups (n : nat) : list str := pg <$> seq 1 n.

(** The text of the [ValueError] raised for an inventory without patch
    group; the literal is continued over three source lines, whose
    indentation is part of it. *)
Definition no_patch_groups_message : str :=
  lit "Inventory file must have one or more defined patch " ++ replicate 41 " "
  ++ lit "groups with the group in the format " ++ ["034"] ++ lit "pg#" ++ ["034"]
  ++ lit ". " ++ replicate 41 " " ++ lit "Example: pg1, pg2, pg3".



(** *** begin_patch.py: process_retry_file *)

(** [[line.strip() for line in f if line.strip()]] on a retry file holding
    [text]. *)
Definition retry_hostlist (text : str) : list str :=
  filter (λ h, h ≠ []) (stripped_lines text).

(** [process_retry_file]: [retry] is the content of the first [.retry] file
    of the playbook directory when it passes [validate_file], [skiprole]
    the content of the skip-role file ([None] when it does not exist).  The
    result is the host list returned and the skip-role file afterwards. *)
Definition process_retry_file (retry : option str) (skiprole : option str)
    : list str * option str :=
  match retry with
  | Some text =>
      let hostlist := retry_hostlist text in
      (hostlist,
       match hostlist with
       | [] => skiprole
       | _ => Some (append_skip_file skiprole hostlist)
       end)
  | None => ([], skiprole)
  end.

(** *** begin_patch.py: get_exvars and get_creds *)

(** [needle in s] *)
Fixpoint contains (s needle : str) : bool :=
  startswith s needle
  || match s with
     | _ :: s' => contains s' needle
     | [] => false
     end.

(** [get_exvars], from the three mode flags: the extra variables returned
    and the line printed, if any. *)
Definition get_exvars (pkgcheck upgrade upgradepkgsonly : bool) : str * list str :=
  if pkgcheck then
    (lit "run_pkgcheck: true",
     if upgrade || upgradepkgsonly then
       [lit "Warning: Upgrade flag cannot be used with pkgcheck. Running pkgcheck only!"]
     else [])
  else if upgradepkgsonly then
    (lit "run_precheck: true, run_upgrade: true, reboot_if_required: false",
     [lit "Info: Upgrade packages only. Skipping reboots even if required."])
  else if upgrade then
    (lit "run_precheck: true, run_upgrade: true",
     [lit "Info: Upgrade packages and rebooting hosts if required."])
  else
    (lit "run_precheck: true, run_upgrade: false",
     [lit "Info: Running pre-checks and host validations"]).

(** [os.path.join(a, b)] on a POSIX system, for a relative [b]. *)
Definition path_join (a b : str) : str :=
  match last a with
  | None => b
  | Some c => if bool_decide (c = "/") then a ++ b else a ++ lit "/" ++ b
  end.

(** [get_creds]: [deploy] is [os.environ.get('DEPLOY')]; [None] is
    formatted as the word [None] by the f-string. *)
Definition get_creds (nocreds askpass askpassbecome : bool)
    (deploy : option str) (home_dir : str) : str :=
  if nocreds then []
  else if askpass then lit "-k"
  else if askpassbecome then lit "-kK"
  else
    let ans_user := default (lit "None") deploy in
    let ans_key := path_join (path_join home_dir (lit ".ssh")) (lit "deploy") in
    lit "--user " ++ ans_user ++ lit " --private-key " ++ ans_key.

(** [s.split()]: the maximal runs of characters that are not whitespace. *)
Fixpoint split_ws (s : str) : list str :=
  match s with
  | [] => []
  | c :: s' =>
      if is_space c then split_ws s'
      else
        match s' with
        | [] => [[c]]
        | d :: _ =>
            if is_space d then [c] :: split_ws s'
            else match split_ws s' with
                 | w :: ws => (c :: w) :: ws
                 | [] => [[c]]
                 end
        end
  end.

(** *** gcs_upload.py: the bucket of a bucket path *)

(** [bucket_path.split("/")[0] + "//" + bucket_path.split("/")[2]], the
    argument [upload_folder_to_gcs] gives to [validate_gcs_bucket]; [None]
    stands for the [IndexError] of the subscript [[2]]. *)
Definition bucket_root (bucket_path : str) : option str :=
  match split "/" bucket_path with
  | scheme :: _ :: bucket :: _ => Some (scheme ++ lit "//" ++ bucket)
  | _ => None
  end.

(** A word: not empty, without whitespace. *)
Definition is_word (w : str) : bool :=
  bool_decide (w ≠ []) && forallb (λ c, negb (is_space c)) w.

(** *** begin_patch.py: generate_and_move_patch_groups, and the runs
    without inventory *)

(** What [validate_file] looks at in the entry of a path: [os.path.isfile],
    the content (for [os.path.getsize]), [os.access(.., os.R_OK)] and the
    bit [S_IRUSR] of [st_mode]. *)
Record path_entry := {
  is_file : bool;
  file_content : str;
  readable : bool;
  owner_read : bool
}.

(** [validate_file]; [entry] is [None] when [os.path.exists] is false.  The
    result is the value returned and the lines printed. *)
Definition validate_file (file_path : str) (entry : option path_entry) : bool * list str :=
  match entry with
  | None => (false, [lit "File does not exist: " ++ file_path])
  | Some e =>
      if negb (is_file e) then (false, [lit "Path is not a file: " ++ file_path])
      else if bool_decide (length (file_content e) = 0) then
        (false, [lit "File is empty: " ++ file_path])
      else if negb (readable e) then (false, [lit "File is not readable: " ++ file_path])
      else if negb (owner_read e) then
        (false, [lit "File does not have read permissions for the owner: " ++ file_path])
      else (true, [])
  end.

(** How a call of the driver ends: it returns a value, it exits with a code,
    or it reads the local variable [patch_group_new_path] before any
    assignment, which raises [UnboundLocalError]; that exception is no
    [ValueError], so [run] does not catch it.  Each carries the lines
    printed. *)
Inductive generated (A : Type) :=
  | Done (printed : list str) (result : A)
  | Exited (printed : list str) (code : nat)
  | UnboundLocalError (printed : list str).

Arguments Done {A} printed result.
Arguments Exited {A} printed code.
Arguments UnboundLocalError {A} printed.

(** [generate_and_move_patch_groups], once [generate_patch_groups] has
    returned: [entry] is what the path [patch-groups-{region}.yaml] then
    holds, and [move_error] is [str(e)] when [shutil.move] raises
    [shutil.Error] or [OSError].  The assignment of [patch_group_new_path] is
    under [if self.validate_file(..)], the [return] is not. *)
Definition generate_and_move_patch_groups (region vars_dir : str)
    (entry : option path_entry) (move_error : option str) : generated str :=
  let patch_group_file := patch_group_filename region in
  match validate_file patch_group_file entry with
  | (true, printed) =>
      let patch_group_new_path := path_join vars_dir patch_group_file in
      match move_error with
      | None =>
          Done (printed ++ [lit "File '" ++ patch_group_file
                            ++ lit "' has been moved to " ++ vars_dir])
               patch_group_new_path
      | Some e => Exited (printed ++ [lit "Error moving patch group file: " ++ e]) 1
      end
  | (false, printed) => UnboundLocalError printed
  end.

(** The branch of [run_normal_mode] without [-i]: the inventory file and the
    patch groups handed to [run_patch_playbook], in order.  The file read by
    [count_patch_groups] is the one that was validated and moved; there is
    no test of the count in this branch. *)
Definition run_generated (grouplist : option str) (region vars_dir : str)
    (entry : option path_entry) (move_error : option str)
    : generated (str * list str) :=
  match generate_and_move_patch_groups region vars_dir entry move_error with
  | Done printed patch_group_file =>
      Done printed
        (patch_group_file,
         match grouplist with
         | Some (c :: g) => [strip_with is_quote (c :: g)]
         | _ =>
             let num_patch_groups :=
               count_patch_groups (from_option file_content [] entry) in
             patchgroups num_patch_groups
         end)
  | Exited printed code => Exited printed code
  | UnboundLocalError printed => UnboundLocalError printed
  end.

(** * Verification *)

(** Closed decidable side conditions are settled by evaluation. *)
Ltac decide_by_compute :=
  match goal with
  | |- ?P => apply (bool_decide_unpack P); vm_compute; exact I
  end.

Example create_patch_groups_web_db :
  create_patch_groups
    [(lit "web", [lit "a"; lit "b"; lit "c"]); (lit "db", [lit "x"])]
  = [(lit "pg1", [lit "a"; lit "x"]); (lit "pg2", [lit "b"]); (lit "pg3", [lit "c"])].
Proof. vm_compute. reflexivity. Qed.

Example create_patch_groups_sharddb3 :
  create_patch_groups [(sharddb, [lit "h1"; lit "h2"; lit "h3"])]
  = [(lit "pg2", [lit "h1"]); (lit "pg1", [lit "h2"; lit "h3"])].
Proof. vm_compute. reflexivity. Qed.

(** ** Facts about ordered dictionaries *)

Module DictFacts.
Section facts.
Context {K V : Type} `{EqDecision K}.
Implicit Types (d : list (K * V)) (k : K) (v dflt : V) (f : V → V).

Lemma get_None k d : Dict.get k d = None ↔ k ∉ Dict.keys d.
Proof.
    unfold Dict.keys. induction d as [|[k' v] d IH]; simpl.
    - split; [intros _; apply not_elem_of_nil | done].
    - rewrite not_elem_of_cons. destruct (decide (k = k')) as [->|Hne].
      + split; [done | intros [? _]; done].
      + rewrite IH. split; [done | by intros [_ ?]].
Qed.

Lemma get_Some_elem k v d : Dict.get k d = Some v → (k, v) ∈ d.
Proof.
    induction d as [|[k' v'] d IH]; simpl; [done|].
    destruct (decide (k = k')) as [->|]; intros E.
    - injection E as ->. rewrite elem_of_cons. by left.
    - rewrite elem_of_cons. right. auto.
Qed.

Lemma get_app k d1 d2 :
    Dict.get k (d1 ++ d2) = match Dict.get k d1 with Some v => Some v | None => Dict.get k d2 end.
Proof.
    induction d1 as [|[k' v'] d1 IH]; simpl; [done|].
    destruct (decide (k = k')); done.
Qed.

Lemma get_update_eq dflt f k d :
    Dict.get k (Dict.update dflt f k d) = Some (f (default dflt (Dict.get k d))).
Proof.
    induction d as [|[k' v'] d IH]; simpl.
    - rewrite decide_True; done.
    - destruct (decide (k = k')) as [->|Hne]; simpl.
      + rewrite decide_True; done.
      + rewrite decide_False; done.
Qed.

Lemma get_update_ne dflt f k k' d :
    k ≠ k' → Dict.get k' (Dict.update dflt f k d) = Dict.get k' d.
Proof.
    intros Hne. induction d as [|[k0 v0] d IH]; simpl.
    - rewrite decide_False; [done | congruence].
    - destruct (decide (k = k0)) as [->|]; simpl.
      + rewrite !decide_False by congruence. done.
      + rewrite IH. done.
Qed.

Lemma update_fresh dflt f k d :
    k ∉ Dict.keys d → Dict.update dflt f k d = d ++ [(k, f dflt)].
Proof.
    unfold Dict.keys. induction d as [|[k' v'] d IH]; simpl; [done|].
    rewrite not_elem_of_cons. intros [Hne Hni].
    rewrite decide_False by done. rewrite IH; done.
Qed.

Lemma update_last dflt f k v d :
    k ∉ Dict.keys d → Dict.update dflt f k (d ++ [(k, v)]) = d ++ [(k, f v)].
Proof.
    unfold Dict.keys. induction d as [|[k' v'] d IH]; simpl.
    - intros _. rewrite decide_True; done.
    - rewrite not_elem_of_cons. intros [Hne Hni].
      rewrite decide_False by done. rewrite IH; done.
Qed.

Lemma keys_update dflt f k d :
    Dict.keys (Dict.update dflt f k d)
    = if decide (k ∈ Dict.keys d) then Dict.keys d else Dict.keys d ++ [k].
Proof.
    unfold Dict.keys. induction d as [|[k' v'] d IH]; csimpl.
    - done.
    - destruct (decide (k = k')) as [->|Hne]; csimpl.
      + rewrite decide_True; [done | rewrite elem_of_cons; by left].
      + rewrite IH. destruct (decide (k ∈ d.*1)) as [Hin|Hni].
        * rewrite decide_True; [done | rewrite elem_of_cons; by right].
        * rewrite decide_False; [done|]. rewrite not_elem_of_cons. done.
Qed.
End facts.
End DictFacts.

(** ** Facts about strings and group names *)

Lemma lit_inj (s t : string) : lit s = lit t → s = t.
Proof.
  unfold lit. intros E.
  rewrite <- (string_of_list_ascii_of_string s), <- (string_of_list_ascii_of_string t).
  by rewrite E.
Qed.

Lemma str_of_nat_inj (n m : nat) : str_of_nat n = str_of_nat m → n = m.
Proof.
  unfold str_of_nat. intros E%lit_inj.
  apply Unsigned.to_uint_inj.
  assert (Some (Nat.to_uint n) = Some (Nat.to_uint m)) as [=]; [|done].
  rewrite <- !NilEmpty.usu. by rewrite E.
Qed.

Lemma pg_inj (n m : nat) : pg n = pg m → n = m.
Proof. unfold pg. intros E%app_inv_head. by apply str_of_nat_inj. Qed.

Lemma pg_1 : pg 1 = lit "pg1".
Proof. reflexivity. Qed.

Lemma pg_2 : pg 2 = lit "pg2".
Proof. reflexivity. Qed.

(** ** The round-robin deal *)

Section round_robin.
Implicit Types (roles d : list (str * list str)) (i n : nat).

Lemma column_nil i : column i [] = [].
Proof. reflexivity. Qed.

Lemma column_cons i rh roles :
    column i (rh :: roles)
    = match rh.2 !! i with Some h => h :: column i roles | None => column i roles end.
Proof. unfold column. simpl. destruct (rh.2 !! i); done. Qed.

(** One round when the group already exists: every dealt host is appended
      to it. *)
Lemma deal_round_created roles d i acc :
    pg (i + 1) ∉ Dict.keys d →
    deal_round roles (d ++ [(pg (i + 1), acc)]) i
    = d ++ [(pg (i + 1), acc ++ column i roles)].
Proof.
    intros Hfresh. unfold deal_round. revert acc.
    induction roles as [|rh roles IH]; intros acc.
    - by rewrite column_nil, app_nil_r.
    - rewrite column_cons. cbn [foldl]. unfold deal_host at 2.
      destruct (rh.2 !! i) as [h|]; [|apply IH].
      unfold dd_append. rewrite DictFacts.update_last by done.
      rewrite IH. by rewrite <- app_assoc.
Qed.

(** One round when the group does not exist yet: it is created by the first
      host dealt, and not at all when no role is long enough. *)
Lemma deal_round_fresh roles d i :
    pg (i + 1) ∉ Dict.keys d →
    deal_round roles d i
    = match column i roles with
      | [] => d
      | c => d ++ [(pg (i + 1), c)]
      end.
Proof.
    intros Hfresh. unfold deal_round.
    induction roles as [|rh roles IH]; [done|].
    rewrite column_cons. cbn [foldl]. unfold deal_host at 2.
    destruct (rh.2 !! i) as [h|]; [|apply IH].
    unfold dd_append. rewrite DictFacts.update_fresh by done.
    apply (deal_round_created roles d i [h] Hfresh).
Qed.

Lemma column_nonempty roles i : i < max_hosts roles → column i roles ≠ [].
Proof.
    unfold max_hosts. intros Hi.
    assert (roles ≠ []) as Hne by (destruct roles; [simpl in Hi; lia | done]).
    assert (max_list (length <$> Dict.values roles) ∈ length <$> Dict.values roles) as Hmax.
    { apply max_list_elem_of. unfold Dict.values. by destruct roles. }
    assert (i < max_list (length <$> Dict.values roles)) as Hlt by (by destruct roles).
    apply list_elem_of_fmap in Hmax as (hosts & Hlen & Hin).
    apply list_elem_of_fmap in Hin as (rh & -> & Hrh).
    destruct (lookup_lt_is_Some_2 rh.2 i) as [h Hh]; [lia|].
    intros Hnil.
    assert (h ∈ column i roles) as Hc.
    { apply list_elem_of_omap. by exists rh. }
    rewrite Hnil in Hc. by apply elem_of_nil in Hc.
Qed.

Lemma column_beyond roles i : max_hosts roles ≤ i → column i roles = [].
Proof.
    intros Hi. apply elem_of_nil_inv. intros h (rh & Hrh & Hh)%list_elem_of_omap.
    apply lookup_lt_Some in Hh.
    assert (length rh.2 ≤ max_hosts roles); [|lia].
    unfold max_hosts. destruct roles as [|rh0 roles0] eqn:E; [by apply elem_of_nil in Hrh|].
    rewrite <- E in *. apply max_list_elem_of_le.
    apply list_elem_of_fmap_2. by apply list_elem_of_fmap_2.
Qed.

Lemma dealt_keys roles n : Dict.keys (dealt roles n) = (λ i, pg (i + 1)) <$> seq 0 n.
Proof. unfold Dict.keys, dealt. rewrite <- list_fmap_compose. done. Qed.

Lemma deal_rounds roles n :
    n ≤ max_hosts roles →
    foldl (deal_round roles) [] (seq 0 n) = dealt roles n.
Proof.
    induction n as [|n IH]; intros Hn; [done|].
    unfold dealt. rewrite seq_S, foldl_snoc, fmap_app, IH by lia. simpl.
    rewrite deal_round_fresh.
    - pose proof (column_nonempty roles n Hn).
      destruct (column n roles); done.
    - rewrite dealt_keys. intros (j & Hj%pg_inj & Hin)%list_elem_of_fmap.
      apply elem_of_seq in Hin. lia.
Qed.

(** The round-robin deal is the transpose of the role lists: group [i+1]
      is column [i], for the columns that are not empty. *)
Lemma round_robin_dealt roles : round_robin roles = dealt roles (max_hosts roles).
Proof. unfold round_robin. by apply deal_rounds. Qed.

Lemma get_dealt roles n i :
    Dict.get (pg (i + 1)) (dealt roles n)
    = if decide (i < n) then Some (column i roles) else None.
Proof.
    induction n as [|n IH].
    - rewrite decide_False by lia. done.
    - unfold dealt in *. rewrite seq_S, fmap_app, DictFacts.get_app, IH. simpl.
      destruct (decide (i < n)).
      + rewrite decide_True by lia. done.
      + destruct (decide (pg (i + 1) = pg (n + 1))) as [E%pg_inj|Hne].
        * assert (i = n) as -> by lia. rewrite decide_True by lia. done.
        * rewrite decide_False; [done|]. intros ?. apply Hne.
          assert (i = n) as -> by lia. done.
Qed.

Lemma get_round_robin roles i :
    Dict.get (pg (i + 1)) (round_robin roles)
    = if decide (i < max_hosts roles) then Some (column i roles) else None.
Proof. rewrite round_robin_dealt. apply get_dealt. Qed.

(** The hosts of group [pg(i+1)], [[]] when the group is absent. *)
Lemma group_round_robin roles i :
    default [] (Dict.get (pg (i + 1)) (round_robin roles)) = column i roles.
Proof.
    rewrite get_round_robin. case_decide; [done|].
    simpl. symmetry. apply column_beyond. lia.
Qed.
End round_robin.

(** ** Every host is dealt exactly once *)

Section transpose.
Implicit Types (roles : list (str * list str)) (i n : nat).

Lemma elem_of_concat {A} (x : A) (ls : list (list A)) :
    x ∈ concat ls ↔ ∃ l, l ∈ ls ∧ x ∈ l.
Proof.
    induction ls as [|l ls IH]; simpl.
    - split; [by intros ?%elem_of_nil | by intros (? & ?%elem_of_nil & _)].
    - rewrite elem_of_app, IH. split.
      + intros [?|(l' & ? & ?)]; [exists l | exists l']; rewrite elem_of_cons; auto.
      + intros (l' & [->|?]%elem_of_cons & ?); [by left | right; by exists l'].
Qed.

(** In a concatenation without repetition, an element sits in one segment
      only. *)
Lemma NoDup_concat_lookup {A} (ls : list (list A)) i j a b x :
    NoDup (concat ls) → ls !! i = Some a → ls !! j = Some b →
    x ∈ a → x ∈ b → i = j.
Proof.
    revert i j. induction ls as [|l ls IH]; intros i j Hnd Hi Hj Ha Hb; [done|].
    simpl in Hnd. apply NoDup_app in Hnd as (_ & Hdisj & Hnd).
    destruct i as [|i], j as [|j]; simpl in *; simplify_eq; try done.
    - exfalso. apply (Hdisj x Ha). apply elem_of_concat. exists b.
      split; [by eapply list_elem_of_lookup_2 | done].
    - exfalso. apply (Hdisj x Hb). apply elem_of_concat. exists a.
      split; [by eapply list_elem_of_lookup_2 | done].
    - f_equal. by eapply IH.
Qed.

Lemma column_S i roles : column (S i) roles = column i (tails roles).
Proof.
    unfold column, tails. induction roles as [|rh roles IH]; [done|].
    csimpl. rewrite IH, lookup_tail. done.
Qed.

Lemma concat_head_tails roles :
    column 0 roles ++ concat (Dict.values (tails roles)) ≡ₚ concat (Dict.values roles).
Proof.
    unfold Dict.values, tails, column. induction roles as [|[r hosts] roles IH]; [done|].
    csimpl. destruct hosts as [|h hosts]; simpl.
    - done.
    - constructor. rewrite <- IH. rewrite !app_assoc.
      apply Permutation_app_tail, Permutation_app_comm.
Qed.

Lemma concat_columns n roles :
    Forall (λ rh, length rh.2 ≤ n) roles →
    concat ((λ i, column i roles) <$> seq 0 n) ≡ₚ concat (Dict.values roles).
Proof.
    revert roles. induction n as [|n IH]; intros roles Hlen.
    - simpl. unfold Dict.values.
      induction Hlen as [|[r hosts] roles Hr _ IHr]; [done|].
      csimpl. simpl in Hr. destruct hosts; [done | simpl in Hr; lia].
    - cbn [seq]. rewrite <- fmap_S_seq. csimpl.
      rewrite <- list_fmap_compose.
      assert ((λ i, column i roles) ∘ S <$> seq 0 n
              = (λ i, column i (tails roles)) <$> seq 0 n) as ->.
      { apply list_fmap_ext. intros ? i ?. simpl. apply column_S. }
      rewrite IH; [apply concat_head_tails|].
      unfold tails. apply Forall_fmap. eapply Forall_impl; [exact Hlen|].
      intros [r hosts]; simpl. destruct hosts; simpl; lia.
Qed.

Lemma length_le_max_hosts roles :
    Forall (λ rh, length rh.2 ≤ max_hosts roles) roles.
Proof.
    apply Forall_forall. intros rh Hrh.
    unfold max_hosts. destruct roles as [|rh0 roles0] eqn:E; [by apply elem_of_nil in Hrh|].
    rewrite <- E in *. apply max_list_elem_of_le.
    apply list_elem_of_fmap_2. by apply list_elem_of_fmap_2.
Qed.

Lemma values_dealt roles n :
    Dict.values (dealt roles n) = (λ i, column i roles) <$> seq 0 n.
Proof. unfold Dict.values, dealt. rewrite <- list_fmap_compose. done. Qed.

(** The round-robin deal hands out every listed host once. *)
Lemma round_robin_Permutation roles :
    concat (Dict.values (round_robin roles)) ≡ₚ concat (Dict.values roles).
Proof.
    rewrite round_robin_dealt, values_dealt.
    apply concat_columns, length_le_max_hosts.
Qed.

Lemma non_sharddb_roles_id hosts_by_role :
    sharddb ∉ Dict.keys hosts_by_role → non_sharddb_roles hosts_by_role = hosts_by_role.
Proof.
    unfold non_sharddb_roles, Dict.keys.
    induction hosts_by_role as [|[r hosts] hbr IH]; [done|].
    csimpl. rewrite not_elem_of_cons. intros [Hne Hni].
    rewrite filter_cons_True by (simpl; congruence). by rewrite IH.
Qed.

Lemma create_patch_groups_no_sharddb hosts_by_role :
    sharddb ∉ Dict.keys hosts_by_role →
    create_patch_groups hosts_by_role = round_robin hosts_by_role.
Proof.
    intros Hno. unfold create_patch_groups, place_sharddb.
    rewrite non_sharddb_roles_id by done.
    apply DictFacts.get_None in Hno. by rewrite Hno.
Qed.
End transpose.

(** ** Claims about [create_patch_groups] *)

Lemma dealt_elem roles n k g :
  (k, g) ∈ dealt roles n ↔ ∃ i, i < n ∧ k = pg (i + 1) ∧ g = column i roles.
Proof.
  unfold dealt. rewrite list_elem_of_fmap. split.
  - intros (i & [= -> ->] & Hi%elem_of_seq). exists i. split; [lia | done].
  - intros (i & Hi & -> & ->). exists i. split; [done|]. apply elem_of_seq. lia.
Qed.

Lemma column_elem roles i h :
  h ∈ column i roles ↔ ∃ r hosts, (r, hosts) ∈ roles ∧ hosts !! i = Some h.
Proof.
  unfold column. rewrite list_elem_of_omap. split.
  - intros ([r hosts] & ? & ?). by exists r, hosts.
  - intros (r & hosts & ? & ?). by exists (r, hosts).
Qed.

(** In the groups dealt from role lists with pairwise distinct hosts, a host
    is in one group only. *)
Lemma dealt_group_unique roles n k1 g1 k2 g2 h :
  NoDup (concat (Dict.values (dealt roles n))) →
  (k1, g1) ∈ dealt roles n → (k2, g2) ∈ dealt roles n →
  h ∈ g1 → h ∈ g2 → k1 = k2.
Proof.
  rewrite values_dealt. intros Hnd (i & Hi & -> & ->)%dealt_elem (j & Hj & -> & ->)%dealt_elem H1 H2.
  f_equal. f_equal.
  eapply (NoDup_concat_lookup _ i j _ _ h Hnd); [| |exact H1|exact H2].
  - rewrite list_lookup_fmap, lookup_seq_lt by done. done.
  - rewrite list_lookup_fmap, lookup_seq_lt by done. done.
Qed.

(** C1.  Without the reserved role and with pairwise distinct host names,
    [create_patch_groups] is the round-robin transpose of the role lists:
    every listed host is in exactly one group, and group [pg(i+1)] holds
    exactly the hosts at position [i] of the role lists longer than [i]
    (in role order); the groups are [pg1 .. pgN] for [N] the longest role
    list. *)
Theorem create_patch_groups_round_robin (hosts_by_role : list (str * list str)) :
  sharddb ∉ Dict.keys hosts_by_role →
  NoDup (concat (Dict.values hosts_by_role)) →
  let groups := create_patch_groups hosts_by_role in
  (∀ h, h ∈ concat (Dict.values hosts_by_role) →
        exists! k, ∃ g, Dict.get k groups = Some g ∧ h ∈ g)
  ∧ (∀ i h, h ∈ default [] (Dict.get (pg (i + 1)) groups)
            ↔ ∃ r hosts, (r, hosts) ∈ hosts_by_role ∧ hosts !! i = Some h)
  ∧ (∀ i, default [] (Dict.get (pg (i + 1)) groups) = column i hosts_by_role)
  ∧ groups = dealt hosts_by_role (max_hosts hosts_by_role).
Proof.
  intros Hno Hnd groups.
  assert (groups = dealt hosts_by_role (max_hosts hosts_by_role)) as Hgroups.
  { unfold groups. rewrite create_patch_groups_no_sharddb by done.
    apply round_robin_dealt. }
  assert (∀ i, default [] (Dict.get (pg (i + 1)) groups) = column i hosts_by_role) as Hcol.
  { intros i. unfold groups. rewrite create_patch_groups_no_sharddb by done.
    apply group_round_robin. }
  split; [|split; [|split]]; [|intros i h; rewrite Hcol; apply column_elem|done|done].
  intros h Hh.
  assert (concat (Dict.values groups) ≡ₚ concat (Dict.values hosts_by_role)) as Hperm.
  { rewrite Hgroups, <- round_robin_dealt. apply round_robin_Permutation. }
  rewrite <- Hperm in Hh, Hnd.
  apply elem_of_concat in Hh as (g & Hg & Hhg).
  unfold Dict.values in Hg. apply list_elem_of_fmap in Hg as ([k g'] & -> & Hkg).
  simpl in Hhg. rewrite Hgroups in Hkg, Hnd.
  pose proof Hkg as (i & Hi & -> & ->)%dealt_elem.
  exists (pg (i + 1)). split.
  - exists (column i hosts_by_role). split; [|done].
    rewrite Hgroups, get_dealt, decide_True by done. done.
  - intros k' (g' & Hget & Hh'). rewrite Hgroups in Hget.
    apply DictFacts.get_Some_elem in Hget.
    by eapply dealt_group_unique.
Qed.

Lemma create_patch_groups_round_robin_witness :
  let hosts_by_role :=
    [(lit "web", [lit "a"; lit "b"; lit "c"]); (lit "db", [lit "x"])] in
  let groups := create_patch_groups hosts_by_role in
  (∀ h, h ∈ concat (Dict.values hosts_by_role) →
        exists! k, ∃ g, Dict.get k groups = Some g ∧ h ∈ g)
  ∧ (∀ i h, h ∈ default [] (Dict.get (pg (i + 1)) groups)
            ↔ ∃ r hosts, (r, hosts) ∈ hosts_by_role ∧ hosts !! i = Some h)
  ∧ (∀ i, default [] (Dict.get (pg (i + 1)) groups) = column i hosts_by_role)
  ∧ groups = dealt hosts_by_role (max_hosts hosts_by_role).
Proof.
  apply create_patch_groups_round_robin.
  - decide_by_compute.
  - decide_by_compute.
Defined.

(** *** The reserved role *)

Lemma lit_pg1_ne_pg2 : lit "pg1" ≠ lit "pg2".
Proof. intros E%lit_inj. discriminate. Qed.

(** Whatever the reserved role holds, no group other than [pg1] and [pg2]
    is touched by its placement. *)
Lemma place_sharddb_other hosts_by_role d k :
  k ≠ lit "pg1" → k ≠ lit "pg2" →
  Dict.get k (place_sharddb hosts_by_role d) = Dict.get k d.
Proof.
  intros H1 H2. unfold place_sharddb, dd_extend.
  destruct (Dict.get sharddb hosts_by_role) as [sh|]; [|done].
  case_decide; rewrite ?DictFacts.get_update_ne by done; done.
Qed.

Lemma column_subseteq roles i h :
  h ∈ column i roles → h ∈ concat (Dict.values roles).
Proof.
  intros (r & hosts & Hin & Hh)%column_elem. apply elem_of_concat.
  exists hosts. split; [|by eapply list_elem_of_lookup_2].
  unfold Dict.values. apply list_elem_of_fmap. by exists (r, hosts).
Qed.

Lemma round_robin_elem roles k g h :
  Dict.get k (round_robin roles) = Some g → h ∈ g → h ∈ concat (Dict.values roles).
Proof.
  rewrite round_robin_dealt.
  intros (i & _ & -> & ->)%DictFacts.get_Some_elem%dealt_elem. apply column_subseteq.
Qed.

(** C2.  When the reserved role has more than one host, the first half
    ([hosts[:mid]], [mid = len // 2]) is appended to [pg2] and the rest
    ([hosts[mid:]]) to [pg1], after the hosts the round-robin deal put
    there; no other group changes.  For [[h1,h2,h3]], [pg2] receives [[h1]]
    and [pg1] receives [[h2,h3]]. *)
Theorem create_patch_groups_sharddb_split
    (hosts_by_role : list (str * list str)) (sharddb_hosts : list str) :
  Dict.get sharddb hosts_by_role = Some sharddb_hosts →
  1 < length sharddb_hosts →
  let mid := length sharddb_hosts `div` 2 in
  let roles := non_sharddb_roles hosts_by_role in
  let groups := create_patch_groups hosts_by_role in
  Dict.get (lit "pg2") groups = Some (column 1 roles ++ take mid sharddb_hosts)
  ∧ Dict.get (lit "pg1") groups = Some (column 0 roles ++ drop mid sharddb_hosts)
  ∧ (∀ k, k ≠ lit "pg1" → k ≠ lit "pg2" →
          Dict.get k groups = Dict.get k (round_robin roles))
  ∧ (∀ h1 h2 h3, sharddb_hosts = [h1; h2; h3] →
       Dict.get (lit "pg2") groups = Some (column 1 roles ++ [h1])
       ∧ Dict.get (lit "pg1") groups = Some (column 0 roles ++ [h2; h3])).
Proof.
  intros Hget Hlen mid roles groups.
  assert (Dict.get (lit "pg2") groups = Some (column 1 roles ++ take mid sharddb_hosts)) as Hpg2.
  { unfold groups, create_patch_groups, place_sharddb. rewrite Hget.
    rewrite decide_False by lia. unfold dd_extend.
    rewrite DictFacts.get_update_ne by apply lit_pg1_ne_pg2.
    rewrite DictFacts.get_update_eq. rewrite <- pg_2.
    rewrite (group_round_robin _ 1). done. }
  assert (Dict.get (lit "pg1") groups = Some (column 0 roles ++ drop mid sharddb_hosts)) as Hpg1.
  { unfold groups, create_patch_groups, place_sharddb. rewrite Hget.
    rewrite decide_False by lia. unfold dd_extend.
    rewrite DictFacts.get_update_eq.
    rewrite DictFacts.get_update_ne by (intros E; by apply lit_pg1_ne_pg2).
    rewrite <- pg_1. rewrite (group_round_robin _ 0). done. }
  split; [done|]. split; [done|]. split.
  - intros k H1 H2. by apply place_sharddb_other.
  - intros h1 h2 h3 E. rewrite Hpg2, Hpg1. unfold mid. rewrite E. done.
Qed.

Lemma create_patch_groups_sharddb_split_witness :
  let hosts_by_role :=
    [(lit "web", [lit "a"; lit "b"]); (sharddb, [lit "h1"; lit "h2"; lit "h3"])] in
  let groups := create_patch_groups hosts_by_role in
  Dict.get (lit "pg2") groups = Some [lit "b"; lit "h1"]
  ∧ Dict.get (lit "pg1") groups = Some [lit "a"; lit "h2"; lit "h3"].
Proof.
  intros hosts_by_role groups.
  destruct (create_patch_groups_sharddb_split hosts_by_role
              [lit "h1"; lit "h2"; lit "h3"]) as (H2 & H1 & _).
  - reflexivity.
  - simpl. lia.
  - split; [exact H2 | exact H1].
Defined.

(** The membership reading of "that host is in no other group" fails when
    the same name is also listed under another role: here [h] is also the
    second host of [web], and the round-robin deal puts it in [pg2]. *)
Lemma sharddb_single_counterexample :
  let hosts_by_role := [(lit "web", [lit "a"; lit "h"]); (sharddb, [lit "h"])] in
  Dict.get sharddb hosts_by_role = Some [lit "h"]
  ∧ ¬ (∀ k g, Dict.get k (create_patch_groups hosts_by_role) = Some g →
              lit "h" ∈ g → k = lit "pg1").
Proof.
  split; [reflexivity|]. intros H.
  specialize (H (lit "pg2") [lit "h"]).
  assert (lit "pg2" = lit "pg1") as E%lit_inj; [|discriminate].
  apply H; [vm_compute; reflexivity | rewrite list_elem_of_singleton; done].
Qed.

(** C3 (amended).  When the reserved role has exactly one host, whose name
    is not also listed under another role, that host is appended to [pg1]
    and is in no other group; when there is no other role at all, the result
    is [pg1] holding exactly that host, and there is no [pg2]. *)
Theorem create_patch_groups_sharddb_single
    (hosts_by_role : list (str * list str)) (h : str) :
  Dict.get sharddb hosts_by_role = Some [h] →
  h ∉ concat (Dict.values (non_sharddb_roles hosts_by_role)) →
  let roles := non_sharddb_roles hosts_by_role in
  let groups := create_patch_groups hosts_by_role in
  Dict.get (lit "pg1") groups = Some (column 0 roles ++ [h])
  ∧ (∀ k g, Dict.get k groups = Some g → h ∈ g → k = lit "pg1")
  ∧ (roles = [] → groups = [(lit "pg1", [h])] ∧ Dict.get (lit "pg2") groups = None).
Proof.
  intros Hget Hfresh roles groups.
  assert (groups = dd_extend (lit "pg1") [h] (round_robin roles)) as Hgroups.
  { unfold groups, create_patch_groups, place_sharddb. rewrite Hget. done. }
  split; [|split].
  - rewrite Hgroups. unfold dd_extend. rewrite DictFacts.get_update_eq.
    rewrite <- pg_1, (group_round_robin _ 0). done.
  - intros k g Hk Hh. destruct (decide (k = lit "pg1")) as [|Hne]; [done|].
    exfalso. apply Hfresh. rewrite Hgroups in Hk. unfold dd_extend in Hk.
    rewrite DictFacts.get_update_ne in Hk by done.
    by eapply round_robin_elem.
  - intros Hroles. rewrite Hgroups, Hroles. split; reflexivity.
Qed.

Lemma create_patch_groups_sharddb_single_witness :
  let hosts_by_role := [(lit "web", [lit "a"; lit "b"]); (sharddb, [lit "h"])] in
  Dict.get (lit "pg1") (create_patch_groups hosts_by_role) = Some [lit "a"; lit "h"].
Proof.
  intros hosts_by_role.
  destruct (create_patch_groups_sharddb_single hosts_by_role (lit "h")) as (H1 & _).
  - reflexivity.
  - decide_by_compute.
  - exact H1.
Defined.

(** The membership reading of the confinement fails in the same way: [h]
    is a host of the reserved role and the third host of [web], so it is
    also in [pg3]. *)
Lemma sharddb_confined_counterexample :
  let hosts_by_role :=
    [(lit "web", [lit "a"; lit "b"; lit "h"]); (sharddb, [lit "h"; lit "g"])] in
  ∃ sharddb_hosts h k g,
    Dict.get sharddb hosts_by_role = Some sharddb_hosts ∧ h ∈ sharddb_hosts
    ∧ Dict.get k (create_patch_groups hosts_by_role) = Some g ∧ h ∈ g
    ∧ k ≠ lit "pg1" ∧ k ≠ lit "pg2".
Proof.
  exists [lit "h"; lit "g"], (lit "h"), (lit "pg3"), [lit "h"].
  split; [reflexivity|]. split; [rewrite elem_of_cons; by left|].
  split; [vm_compute; reflexivity|]. split; [by rewrite list_elem_of_singleton|].
  split; intros E%lit_inj; discriminate.
Qed.

(** C4 (amended).  A host of the reserved role whose name is not also listed
    under another role is in [pg1] or [pg2] and in no other group, however
    many groups the other roles produce; and no group other than [pg1] and
    [pg2] differs from what the other roles alone produce. *)
Theorem sharddb_hosts_confined
    (hosts_by_role : list (str * list str)) (sharddb_hosts : list str) (h : str) :
  Dict.get sharddb hosts_by_role = Some sharddb_hosts →
  h ∈ sharddb_hosts →
  h ∉ concat (Dict.values (non_sharddb_roles hosts_by_role)) →
  let groups := create_patch_groups hosts_by_role in
  (∀ k g, Dict.get k groups = Some g → h ∈ g → k = lit "pg1" ∨ k = lit "pg2")
  ∧ (∃ k g, (k = lit "pg1" ∨ k = lit "pg2") ∧ Dict.get k groups = Some g ∧ h ∈ g)
  ∧ (∀ k, k ≠ lit "pg1" → k ≠ lit "pg2" →
          Dict.get k groups
          = Dict.get k (round_robin (non_sharddb_roles hosts_by_role))).
Proof.
  intros Hget Hh Hfresh groups. split; [|split].
  - intros k g Hk Hin.
    destruct (decide (k = lit "pg1")) as [|H1]; [by left|].
    destruct (decide (k = lit "pg2")) as [|H2]; [by right|].
    exfalso. apply Hfresh. unfold groups, create_patch_groups in Hk.
    rewrite place_sharddb_other in Hk by done. by eapply round_robin_elem.
  - unfold groups, create_patch_groups, place_sharddb. rewrite Hget.
    unfold dd_extend. case_decide.
    + exists (lit "pg1"). eexists. split; [by left|].
      rewrite DictFacts.get_update_eq. split; [done|].
      rewrite elem_of_app. by right.
    + rewrite <- (take_drop (length sharddb_hosts `div` 2) sharddb_hosts) in Hh at 1.
      apply elem_of_app in Hh as [Hh|Hh].
      * exists (lit "pg2"). eexists. split; [by right|].
        rewrite DictFacts.get_update_ne by apply lit_pg1_ne_pg2.
        rewrite DictFacts.get_update_eq. split; [done|].
        rewrite elem_of_app. by right.
      * exists (lit "pg1"). eexists. split; [by left|].
        rewrite DictFacts.get_update_eq. split; [done|].
        rewrite elem_of_app. by right.
  - intros k H1 H2. by apply place_sharddb_other.
Qed.

Lemma sharddb_hosts_confined_witness :
  let hosts_by_role :=
    [(lit "web", [lit "a"; lit "b"; lit "c"]); (sharddb, [lit "h"; lit "g"])] in
  Dict.get (lit "pg2") (create_patch_groups hosts_by_role) = Some [lit "b"; lit "h"]
  ∧ (∀ k g, Dict.get k (create_patch_groups hosts_by_role) = Some g →
            lit "h" ∈ g → k = lit "pg1" ∨ k = lit "pg2").
Proof.
  intros hosts_by_role.
  destruct (sharddb_hosts_confined hosts_by_role [lit "h"; lit "g"] (lit "h")) as (H & _).
  - reflexivity.
  - decide_by_compute.
  - decide_by_compute.
  - split; [vm_compute; reflexivity | exact H].
Defined.

(** *** Group names and empty groups *)

Lemma Forall_update {K V} `{EqDecision K} (P : V → Prop) dflt (f : V → V) k (d : list (K * V)) :
  P (f dflt) → (∀ v, P v → P (f v)) →
  Forall (λ kv, P kv.2) d → Forall (λ kv, P kv.2) (Dict.update dflt f k d).
Proof.
  intros Hd Hf. induction 1 as [|[k' v] d Hv Hall IH]; simpl.
  - by constructor.
  - case_decide; constructor; simpl in *; auto.
Qed.

Lemma round_robin_nonempty roles : Forall (λ kg, kg.2 ≠ []) (round_robin roles).
Proof.
  rewrite round_robin_dealt. apply Forall_forall.
  intros [k g] (i & Hi & -> & ->)%dealt_elem. by apply column_nonempty.
Qed.

(** Every group returned has at least one host, provided the reserved role,
    when present, is not mapped to the empty list. *)
Lemma create_patch_groups_nonempty (hosts_by_role : list (str * list str)) :
  Dict.get sharddb hosts_by_role ≠ Some [] →
  Forall (λ kg, kg.2 ≠ []) (create_patch_groups hosts_by_role).
Proof.
  intros Hsh. unfold create_patch_groups, place_sharddb, dd_extend.
  pose proof (round_robin_nonempty (non_sharddb_roles hosts_by_role)) as Hrr.
  destruct (Dict.get sharddb hosts_by_role) as [sh|]; [|done].
  assert (sh ≠ []) as Hne by congruence.
  case_decide as Hlen.
  - apply (Forall_update (λ g, g ≠ [])); [done| |done].
    intros v _ E%app_eq_nil. by destruct E.
  - assert (2 ≤ length sh) as Hlen2.
    { destruct sh as [|? [|? ?]]; simpl in *; [done | done | lia]. }
    assert (1 ≤ length sh `div` 2) as Hmid1.
    { change 1 with (2 `div` 2). apply Nat.Div0.div_le_mono. exact Hlen2. }
    assert (length sh `div` 2 < length sh) as Hmid2 by (apply Nat.div_lt; lia).
    assert (drop (length sh `div` 2) sh ≠ []) as Hdrop.
    { intros E. apply (f_equal length) in E. rewrite length_drop in E.
      cbn [length] in E. lia. }
    assert (take (length sh `div` 2) sh ≠ []) as Htake.
    { intros E. apply (f_equal length) in E. rewrite length_take in E.
      cbn [length] in E. lia. }
    assert (∀ hs v : list str, hs ≠ [] → v ++ hs ≠ []) as Happ.
    { intros hs v Hhs E%app_eq_nil. by destruct E. }
    apply (Forall_update (λ g, g ≠ [])); [by apply Happ | by auto |].
    apply (Forall_update (λ g, g ≠ [])); [by apply Happ | by auto | done].
Qed.

(** The group names are always [pg1 .. pgK] for some [K], without gaps
    (in some order: the reserved role may create [pg2] before [pg1]). *)
Lemma create_patch_groups_keys_contiguous (hosts_by_role : list (str * list str)) :
  ∃ K, Dict.keys (create_patch_groups hosts_by_role) ≡ₚ (λ i, pg (i + 1)) <$> seq 0 K.
Proof.
  unfold create_patch_groups, place_sharddb, dd_extend.
  set (roles := non_sharddb_roles hosts_by_role).
  assert (∀ k : str, k ∈ Dict.keys (round_robin roles)
                     ↔ ∃ i, i < max_hosts roles ∧ k = pg (i + 1)) as Hkeys.
  { intros k. rewrite round_robin_dealt, dealt_keys, list_elem_of_fmap.
    split.
    - intros (i & -> & Hi%elem_of_seq). exists i. split; [lia | done].
    - intros (i & Hi & ->). exists i. split; [done|]. apply elem_of_seq. lia. }
  pose proof (dealt_keys roles (max_hosts roles)) as Hk.
  rewrite <- round_robin_dealt in Hk.
  destruct (Dict.get sharddb hosts_by_role) as [sh|]; [|by exists (max_hosts roles); rewrite Hk].
  case_decide.
  - rewrite DictFacts.keys_update. case_decide as Hin.
    + exists (max_hosts roles). by rewrite Hk.
    + exists 1. assert (max_hosts roles = 0) as E.
      { destruct (max_hosts roles) eqn:E; [done|]. exfalso. apply Hin, Hkeys.
        exists 0. split; [lia | done]. }
      rewrite Hk, E. done.
  - rewrite !DictFacts.keys_update.
    destruct (decide (lit "pg2" ∈ Dict.keys (round_robin roles))) as [Hin2|Hni2].
    + apply Hkeys in Hin2 as (i & Hi & E). rewrite <- pg_2 in E. apply pg_inj in E.
      rewrite decide_True.
      * exists (max_hosts roles). by rewrite Hk.
      * apply Hkeys. exists 0. split; [lia | done].
    + assert (max_hosts roles ≤ 1) as Hle.
      { destruct (decide (max_hosts roles ≤ 1)); [done|]. exfalso. apply Hni2, Hkeys.
        exists 1. split; [lia | done]. }
      exists 2. rewrite Hk. case_decide as Hin1.
      * apply elem_of_app in Hin1 as [Hin1|Hin1].
        -- apply list_elem_of_fmap in Hin1 as (i & E & Hi). rewrite <- pg_1 in E.
           apply pg_inj in E. apply elem_of_seq in Hi.
           assert (max_hosts roles = 1) as -> by lia. done.
        -- apply list_elem_of_singleton in Hin1. by apply lit_pg1_ne_pg2 in Hin1.
      * assert (max_hosts roles = 0) as ->.
        { destruct (max_hosts roles) eqn:E; [done|]. exfalso. apply Hin1.
          apply elem_of_app. left. apply list_elem_of_fmap. exists 0.
          split; [done|]. apply elem_of_seq. lia. }
        simpl. apply perm_swap.
Qed.

(** An empty role map gives no group. *)
Lemma create_patch_groups_empty : create_patch_groups [] = [].
Proof. reflexivity. Qed.

(** A reserved role mapped to the empty list takes the split branch
    ([len != 1]): [patch_groups["pg2"]] and [patch_groups["pg1"]] are looked
    up on the [defaultdict], which creates both with no host, and both are
    returned: groups are present that have no host. *)
Lemma create_patch_groups_empty_sharddb_counterexample :
  let hosts_by_role := [(sharddb, [] : list str)] in
  create_patch_groups hosts_by_role = [(lit "pg2", []); (lit "pg1", [])]
  ∧ (lit "pg2", []) ∈ create_patch_groups hosts_by_role
  ∧ create_patch_groups [(lit "web", [lit "a"]); (sharddb, [])]
    = [(lit "pg1", [lit "a"]); (lit "pg2", [])].
Proof.
  intros hosts_by_role.
  split; [vm_compute; reflexivity|]. split; [|vm_compute; reflexivity].
  decide_by_compute.
Qed.

(** C5 (amended).  For every role-to-host-list mapping the keys of the
    output of [create_patch_groups] are exactly [pg1 .. pgK] for some [K]
    (contiguous from 1, without gap or repetition); every group present has
    a non-empty host list provided the reserved role, when present, is not
    mapped to the empty list; and the empty role map yields the empty
    output. *)
Theorem create_patch_groups_contiguous_nonempty (hosts_by_role : list (str * list str)) :
  (∃ K, Dict.keys (create_patch_groups hosts_by_role) ≡ₚ (λ i, pg (i + 1)) <$> seq 0 K)
  ∧ NoDup (Dict.keys (create_patch_groups hosts_by_role))
  ∧ (Dict.get sharddb hosts_by_role ≠ Some [] →
     Forall (λ kg, kg.2 ≠ []) (create_patch_groups hosts_by_role))
  ∧ create_patch_groups [] = [].
Proof.
  destruct (create_patch_groups_keys_contiguous hosts_by_role) as [K HK].
  split; [by exists K|]. split; [|split].
  - rewrite HK. apply NoDup_fmap_2; [|apply NoDup_seq].
    intros i j E. apply pg_inj in E. lia.
  - apply create_patch_groups_nonempty.
  - apply create_patch_groups_empty.
Qed.

Lemma create_patch_groups_contiguous_nonempty_witness :
  let hosts_by_role :=
    [(lit "web", [lit "a"; lit "b"; lit "c"]); (sharddb, [lit "h"])] in
  Dict.keys (create_patch_groups hosts_by_role) = [lit "pg1"; lit "pg2"; lit "pg3"]
  ∧ Forall (λ kg, kg.2 ≠ []) (create_patch_groups hosts_by_role).
Proof.
  intros hosts_by_role. split; [vm_compute; reflexivity|].
  destruct (create_patch_groups_contiguous_nonempty hosts_by_role) as (_ & _ & Hne & _).
  apply Hne. vm_compute. discriminate.
Defined.

(** ** Claims about [get_hosts] *)

Lemma get_fmap_values {K V W} `{EqDecision K} (g : V → W) k (d : list (K * V)) :
  Dict.get k ((λ kv, (kv.1, g kv.2)) <$> d) = g <$> Dict.get k d.
Proof.
  induction d as [|[k' v] d IH]; csimpl; [done|].
  case_decide; done.
Qed.

Lemma roster_get_reverse_hosts roster region role :
  roster_get (reverse_hosts roster) region role
  = reverse <$> roster_get roster region role.
Proof.
  unfold roster_get, reverse_hosts.
  rewrite (get_fmap_values (λ by_role, (λ rh, (rh.1, reverse rh.2)) <$> by_role)).
  destruct (Dict.get region roster) as [by_role|]; simpl; [|done].
  apply (get_fmap_values reverse).
Qed.

Lemma roster_get_bucket roster i region role :
  roster_get (bucket roster i) region role
  = if decide (filed_under region role i)
    then Some (default [] (roster_get roster region role) ++ [name i])
    else roster_get roster region role.
Proof.
  unfold bucket, roster_get.
  destruct (decide (filed_under region role i)) as [(Hreg & Hrole & Hne)|Hnot].
  - rewrite Hrole, <- Hreg. destruct role as [|c r]; [done|].
    rewrite DictFacts.get_update_eq. simpl. rewrite DictFacts.get_update_eq.
    destruct (Dict.get (region_label i) roster); done.
  - destruct (role_label i) as [[|c r]|] eqn:Hrole; [done| |done].
    destruct (decide (region_label i = region)) as [Hreg|Hreg].
    + rewrite <- Hreg. rewrite DictFacts.get_update_eq. simpl.
      rewrite DictFacts.get_update_ne.
      * destruct (Dict.get (region_label i) roster); done.
      * intros <-. apply Hnot. done.
    + rewrite DictFacts.get_update_ne by done. done.
Qed.

Lemma entry_of_default hosts : default [] (entry_of hosts) = hosts.
Proof. by destruct hosts. Qed.

Lemma roster_get_foldl_bucket instances region role :
  roster_get (foldl bucket [] instances) region role
  = entry_of (name <$> filter (filed_under region role) instances).
Proof.
  induction instances as [|i instances IH] using rev_ind; [done|].
  rewrite foldl_snoc, roster_get_bucket, IH, filter_app, fmap_app, entry_of_default.
  destruct (decide (filed_under region role i)) as [Hi|Hi].
  - rewrite filter_cons_True, filter_nil by done. simpl.
    by destruct (name <$> filter (filed_under region role) instances).
  - rewrite filter_cons_False, filter_nil by done. simpl. by rewrite app_nil_r.
Qed.

(** An instance has no role exactly when none of its label keys starts with
    [role]. *)
Lemma role_label_None i :
  role_label i = None ↔ Forall (λ kv, ¬ startswith kv.1 (lit "role")) (labels i).
Proof.
  unfold role_label. rewrite fmap_None, head_None.
  split.
  - intros Hnil. apply Forall_forall. intros kv Hin Hs.
    assert (kv ∈ filter (λ kv, startswith kv.1 (lit "role")) (labels i)) as Hf.
    { by apply list_elem_of_filter. }
    rewrite Hnil in Hf. by apply elem_of_nil in Hf.
  - intros Hall. apply elem_of_nil_inv. intros kv [Hs Hin]%list_elem_of_filter.
    rewrite Forall_forall in Hall. by apply (Hall kv).
Qed.

(** *** How the loop reads the role and the region of an instance *)

Lemma startswith_spec (s p : str) : startswith s p ↔ ∃ suffix, s = p ++ suffix.
Proof.
  revert s. induction p as [|c p IH]; intros s.
  - destruct s; simpl; (split; [intros _; by eexists | done]).
  - destruct s as [|d s]; simpl.
    + split; [done | by intros [suffix ?]].
    + rewrite andb_True, bool_decide_spec, IH. split.
      * intros [-> [suffix ->]]. by exists suffix.
      * intros [suffix [= -> ->]]. split; [done | by exists suffix].
Qed.

Lemma startswith_role_key (key : str) : startswith key (lit "role") ↔ role_key key.
Proof. apply startswith_spec. Qed.

Lemma head_filter_spec {A} (P : A → Prop) `{∀ x, Decision (P x)} (l : list A) (x : A) :
  head (filter P l) = Some x
  ↔ ∃ before after, l = before ++ x :: after ∧ P x ∧ Forall (λ y, ¬ P y) before.
Proof.
  split.
  - induction l as [|y l IH]; [done|].
    destruct (decide (P y)) as [Hy|Hy].
    + rewrite filter_cons_True by done. intros [= ->]. by exists [], l.
    + rewrite filter_cons_False by done.
      intros (before & after & -> & Hx & Hb)%IH.
      exists (y :: before), after. split; [done|]. split; [done|]. by constructor.
  - intros (before & after & -> & Hx & Hb).
    induction Hb as [|y before Hy _ IH]; simpl.
    + by rewrite filter_cons_True.
    + by rewrite filter_cons_False.
Qed.

Lemma get_spec {K V} `{EqDecision K} (k : K) (v : V) (d : list (K * V)) :
  Dict.get k d = Some v
  ↔ ∃ before after, d = before ++ (k, v) :: after ∧ Forall (λ kv, kv.1 ≠ k) before.
Proof.
  split.
  - induction d as [|[k' v'] d IH]; [done|]. simpl. case_decide as E.
    + intros [= ->]. subst k'. by exists [], d.
    + intros (before & after & -> & Hb)%IH.
      exists ((k', v') :: before), after. split; [done|]. constructor; [simpl; congruence | done].
  - intros (before & after & -> & Hb).
    induction Hb as [|[k' v'] before Hk _ IH]; simpl in *.
    + by rewrite decide_True.
    + case_decide; [congruence | done].
Qed.

Lemma get_None_Forall {K V} `{EqDecision K} (k : K) (d : list (K * V)) :
  Dict.get k d = None ↔ Forall (λ kv, kv.1 ≠ k) d.
Proof.
  rewrite DictFacts.get_None, Forall_forall. unfold Dict.keys. split.
  - intros Hni [k' v] Hin E. simpl in E. subst k'.
    apply Hni. apply list_elem_of_fmap. by exists (k, v).
  - intros Hall ([k' v] & -> & Hin)%list_elem_of_fmap. by apply (Hall _ Hin).
Qed.

(** The role the loop reads is the one the first role-prefixed label
    gives. *)
Lemma role_label_selects i role : role_label i = Some role ↔ selects_role i role.
Proof.
  unfold role_label, selects_role. rewrite fmap_Some. split.
  - intros ([key r] & (before & after & E & Hk & Hb)%head_filter_spec & ->). simpl in *.
    exists before, key, after. split; [done|]. split; [by apply startswith_role_key|].
    eapply Forall_impl; [exact Hb|]. intros kv Hn ?%startswith_role_key. done.
  - intros (before & key & after & E & Hk & Hb). exists (key, role). split; [|done].
    apply head_filter_spec. exists before, after. split; [done|].
    split; [by apply startswith_role_key|].
    eapply Forall_impl; [exact Hb|]. intros kv Hn ?%startswith_role_key. done.
Qed.

(** The region the loop reads is the value of the [region] label, and
    [unknown] without one. *)
Lemma region_label_has_region i region : region_label i = region ↔ has_region i region.
Proof.
  unfold region_label, has_region.
  destruct (Dict.get (lit "region") (labels i)) as [v|] eqn:E; cbn [from_option id].
  - split.
    + intros <-. left. by apply get_spec.
    + intros [Hsome|[Hnone _]].
      * apply get_spec in Hsome. congruence.
      * apply get_None_Forall in Hnone. congruence.
  - split.
    + intros <-. right. split; [by apply get_None_Forall | done].
    + intros [Hsome|[_ ->]]; [|done]. apply get_spec in Hsome. congruence.
Qed.

Lemma filed_under_listed region role i :
  filed_under region role i ↔ listed_under region role i.
Proof.
  unfold filed_under, listed_under.
  by rewrite region_label_has_region, role_label_selects.
Qed.

#[global] Instance listed_under_dec region role i : Decision (listed_under region role i).
Proof.
  destruct (decide (filed_under region role i)) as [H|H]; [left | right];
    by rewrite <- filed_under_listed.
Defined.



Example get_hosts_example :
  get_hosts
    [ {| name := lit "db-1"; labels := [(lit "region", lit "eu"); (lit "role-db", lit "db")] |};
      {| name := lit "db-2"; labels := [(lit "role", lit "db"); (lit "region", lit "eu")] |};
      {| name := lit "tmp"; labels := [(lit "region", lit "eu")] |};
      {| name := lit "web-1"; labels := [(lit "role", lit "web")] |} ]
  = [ (lit "eu", [(lit "db", [lit "db-2"; lit "db-1"])]);
      (lit "unknown", [(lit "web", [lit "web-1"])]) ].
Proof. vm_compute. reflexivity. Qed.

(** ** Claims about [validate_region] *)

Example validate_region_us_central1 : validate_region (lit "us-central1") = Returns.
Proof. reflexivity. Qed.

Example validate_region_upper :
  validate_region (lit "US-central1")
  = Exits [ lit "Invalid region format: US-central1";
            lit "Region should be in the format: <geography>-<region><number>";
            lit "Example: us-central1" ] 1.
Proof. reflexivity. Qed.

Example create_patch_group_files_example :
  create_patch_group_files [(lit "pg1", [lit "a"; lit "x"]); (lit "pg2", [lit "b"])]
  = lit "pg1:" ++ [nl] ++ lit "  hosts:" ++ [nl] ++ lit "    a:" ++ [nl]
    ++ lit "    x:" ++ [nl] ++ lit "pg2:" ++ [nl] ++ lit "  hosts:" ++ [nl]
    ++ lit "    b:" ++ [nl].
Proof. reflexivity. Qed.

Example count_patch_groups_example :
  findall pg_pattern
    (create_patch_group_files [(lit "pg1", [lit "a"; lit "x"]); (lit "pg12", [lit "b"])])
  = [lit "pg1:"; lit "pg12:"].
Proof. vm_compute. reflexivity. Qed.

(** *** The matcher on class repetitions *)

Lemma match_at_one p pat c s :
  match_at (One p :: pat) (c :: s) = if p c then match_at pat s else None.
Proof. reflexivity. Qed.

Lemma match_at_many1 p pat c s :
  match_at (Many1 p :: pat) (c :: s)
  = if p c then
      match match_at (Many1 p :: pat) s with
      | Some rest => Some rest
      | None => match_at pat s
      end
    else None.
Proof. reflexivity. Qed.

Lemma match_at_many1_nil p pat : match_at (Many1 p :: pat) [] = None.
Proof. reflexivity. Qed.

Lemma span_spec p s :
  s = (span p s).1 ++ (span p s).2
  ∧ forallb p (span p s).1 = true
  ∧ stops p (span p s).2.
Proof.
  induction s as [|c s (IH1 & IH2 & IH3)]; simpl; [done|].
  destruct (p c) eqn:Hc; [|done].
  destruct (span p s) as [w r]; simpl in *.
  rewrite Hc, IH2. by rewrite IH1 at 1.
Qed.

Lemma span_app p w r :
  forallb p w = true → stops p r → span p (w ++ r) = (w, r).
Proof.
  intros Hw Hr. induction w as [|c w IH]; simpl in *.
  - destruct r as [|d r]; [done|]. simpl in *. by rewrite Hr.
  - apply andb_prop in Hw as [Hc Hw]. rewrite Hc, IH by done. done.
Qed.

(** A greedy repetition that can take the whole run and then go on does so:
    the first alternative the engine tries succeeds. *)
Lemma match_at_many1_run p pat w r rest :
  w ≠ [] → forallb p w = true → stops p r →
  match_at pat r = Some rest →
  match_at (Many1 p :: pat) (w ++ r) = Some rest.
Proof.
  intros Hne Hw Hr Hrest. induction w as [|c w IH]; [done|].
  simpl in Hw. apply andb_prop in Hw as [Hc Hw].
  change ((c :: w) ++ r) with (c :: (w ++ r)).
  rewrite match_at_many1, Hc.
  destruct w as [|d w].
  - rewrite app_nil_l.
    assert (match_at (Many1 p :: pat) r = None) as ->; [|done].
    destruct r as [|e r]; [done|]. simpl in Hr. by rewrite match_at_many1, Hr.
  - by rewrite IH.
Qed.

(** A final repetition matches as soon as one character of the class is
    there, whatever follows. *)
Lemma match_at_many1_last p c s : p c = true → is_Some (match_at [Many1 p] (c :: s)).
Proof.
  revert c. induction s as [|d s IH]; intros c Hc.
  - rewrite match_at_many1, Hc, match_at_many1_nil. done.
  - rewrite match_at_many1, Hc. destruct (p d) eqn:Hd.
    + destruct (IH d Hd) as [rest ->]. done.
    + assert (match_at [Many1 p] (d :: s) = None) as ->; [|done].
      by rewrite match_at_many1, Hd.
Qed.

Lemma is_lower_not_digit c : is_digit c = true → is_lower c = false.
Proof.
  unfold is_digit, is_lower. intros H%bool_decide_eq_true.
  apply bool_decide_eq_false. lia.
Qed.

(** A region in the format passes the check, and so does any string that
    merely starts with one: nothing in [validate_region] looks at what
    follows the digits. *)
Lemma validate_region_prefix (region junk : str) :
  gcp_region_format region = true → validate_region (region ++ junk) = Returns.
Proof.
  unfold gcp_region_format, validate_region.
  pose proof (span_spec is_lower region) as (Hs1 & Hgeo & Hstop1).
  destruct (span is_lower region) as [geography r1]; simpl in Hs1, Hgeo, Hstop1.
  destruct r1 as [|c r2]; [done|].
  pose proof (span_spec is_lower r2) as (Hs2 & Hreg & Hstop2).
  destruct (span is_lower r2) as [reg number]; simpl in Hs2, Hreg, Hstop2.
  intros H. repeat (apply andb_prop in H as [H ?]).
  repeat match goal with
         | H : bool_decide _ = true |- _ => apply bool_decide_eq_true in H
         end.
  subst c. destruct number as [|d number]; [done|].
  assert (is_digit d = true) as Hd by (simpl in *; by destruct (is_digit d)).
  destruct (match_at_many1_last is_digit d (number ++ junk) Hd) as [rest Hrest].
  assert (match_at region_pattern (region ++ junk) = Some rest) as ->; [|done].
  unfold region_pattern. rewrite Hs1, Hs2, <- !app_assoc.
  apply match_at_many1_run; [done|done|done|].
  rewrite <- app_comm_cons, match_at_one.
  replace (is_char "-" "-") with true by done.
  rewrite <- app_assoc.
  apply match_at_many1_run; [done|done| |exact Hrest].
  simpl. by apply is_lower_not_digit.
Qed.

(** ** What [validate_region] accepts, exactly *)

Lemma match_at_many1_inv p pat s rest :
  match_at (Many1 p :: pat) s = Some rest →
  ∃ w r, s = w ++ r ∧ w ≠ [] ∧ forallb p w = true ∧ match_at pat r = Some rest.
Proof.
  induction s as [|c s IH]; [done|].
  rewrite match_at_many1. destruct (p c) eqn:Hc; [|done].
  destruct (match_at (Many1 p :: pat) s) as [rest'|] eqn:E.
  - intros [= ->]. destruct (IH eq_refl) as (w & r & -> & _ & Hw & Hr).
    exists (c :: w), r. simpl. by rewrite Hc, Hw.
  - intros Hr. exists [c], s. simpl. by rewrite Hc.
Qed.

Lemma match_at_suffix pat s rest :
  match_at pat s = Some rest → ∃ m, s = m ++ rest.
Proof.
  revert s. induction pat as [|[p|p] pat IH]; intros s.
  - intros [= ->]. by exists [].
  - destruct s as [|c s]; [done|]. rewrite match_at_one.
    destruct (p c); [|done]. intros (m & ->)%IH. by exists (c :: m).
  - intros (w & r & -> & _ & _ & (m & ->)%IH)%match_at_many1_inv.
    exists (w ++ m). by rewrite app_assoc.
Qed.

Lemma forallb_digit_stops_lower num :
  num ≠ [] → forallb is_digit num = true → stops is_lower num.
Proof.
  destruct num as [|d num]; [done|]. simpl.
  intros _ [Hd _]%andb_prop. by apply is_lower_not_digit.
Qed.

(** [validate_region] returns exactly on the strings that start with a
    region in the format; the others make it print and exit with code 1. *)
Lemma validate_region_returns (region : str) :
  validate_region region = Returns
  ↔ ∃ prefix junk, region = prefix ++ junk ∧ gcp_region_format prefix = true.
Proof.
  split.
  - unfold validate_region.
    destruct (match_at region_pattern region) as [rest|] eqn:E; [intros _|done].
    unfold region_pattern in E.
    apply match_at_many1_inv in E as (geography & r1 & -> & Hg & Hgl & E).
    destruct r1 as [|c r2]; [done|]. rewrite match_at_one in E.
    destruct (is_char "-" c) eqn:Hc; [|done].
    apply bool_decide_eq_true in Hc as ->.
    apply match_at_many1_inv in E as (reg & r3 & -> & Hr & Hrl & E).
    apply match_at_many1_inv in E as (num & r4 & -> & Hn & Hnd & [= ->]).
    exists (geography ++ "-" :: reg ++ num), rest.
    split; [by rewrite <- !app_assoc, <- app_comm_cons, <- app_assoc|].
    unfold gcp_region_format.
    rewrite (span_app is_lower geography ("-" :: reg ++ num)) by done.
    rewrite (span_app is_lower reg num) by (by auto using forallb_digit_stops_lower).
    rewrite Hnd. by rewrite !bool_decide_eq_true_2.
  - intros (prefix & junk & -> & Hfmt). by apply validate_region_prefix.
Qed.

(** The half of the claim that holds: a region in the format passes. *)
Lemma validate_region_format (region : str) :
  gcp_region_format region = true → validate_region region = Returns.
Proof. intros H. rewrite <- (app_nil_r region). by apply validate_region_prefix. Qed.

(** And when the check fails, it prints the three lines and exits with a
    non-zero code. *)
Lemma validate_region_exits (region : str) :
  validate_region region ≠ Returns →
  ∃ printed, validate_region region = Exits printed 1.
Proof.
  unfold validate_region. destruct (match_at region_pattern region); [done|].
  intros _. by eexists.
Qed.

(** C9.  [validate_region] returns normally on regions in the format, but
    also on strings that are not in it: the pattern has no end anchor and
    [re.match] only looks for a match at the start, so [us-central1-a] (a
    zone) and [us-central1; reboot] are let through. *)
Theorem validate_region_unanchored :
  gcp_region_format (lit "us-central1-a") = false
  ∧ validate_region (lit "us-central1-a") = Returns
  ∧ gcp_region_format (lit "us-central1; reboot") = false
  ∧ validate_region (lit "us-central1; reboot") = Returns.
Proof. repeat split; vm_compute; reflexivity. Qed.

(** ** Claims about [count_patch_groups] on the emitted file *)

(** A match of a pattern that rejects the line feed stays within the line:
    it is decided, and ends, before the first line feed, whatever follows
    it. *)
Lemma match_at_line pat x b :
  rejects nl pat →
  (match_at pat (x ++ [nl]) = None ∧ match_at pat (x ++ nl :: b) = None)
  ∨ (∃ m x', x = m ++ x'
             ∧ match_at pat (x ++ [nl]) = Some (x' ++ [nl])
             ∧ match_at pat (x ++ nl :: b) = Some (x' ++ nl :: b)).
Proof.
  intros Hrej. revert x. induction Hrej as [|a pat Ha Hrej IH]; intros x.
  - right. by exists [], x.
  - destruct a as [p|p]; simpl in Ha.
    + destruct x as [|c x]; [left; simpl; by rewrite Ha|].
      rewrite <- !app_comm_cons, !match_at_one.
      destruct (p c); [|by left].
      destruct (IH x) as [?|(m & x' & -> & ? & ?)]; [by left|].
      right. by exists (c :: m), x'.
    + induction x as [|c x IHx].
      * left. rewrite !app_nil_l, !match_at_many1, Ha. done.
      * rewrite <- !app_comm_cons, !match_at_many1.
        destruct (p c); [|by left].
        destruct IHx as [[-> ->]|(m & x' & -> & -> & ->)].
        -- destruct (IH x) as [?|(m & x' & -> & ? & ?)]; [by left|].
           right. by exists (c :: m), x'.
        -- right. by exists (c :: m), x'.
Qed.

Lemma findall_from_skip pat y z :
  findall_from pat (length y) (y ++ z) = findall_from pat 0 z.
Proof. induction y as [|c y IH]; [by destruct z | done]. Qed.

(** Scanning a text whose first line is [x] is scanning that line and then
    the rest. *)
Lemma findall_from_line a pat x b skip :
  rejects nl (a :: pat) → skip ≤ length x →
  findall_from (a :: pat) skip (x ++ nl :: b)
  = findall_from (a :: pat) skip (x ++ [nl]) ++ findall_from (a :: pat) 0 b.
Proof.
  intros Hrej. revert skip. induction x as [|c x IH]; intros skip Hskip.
  - assert (skip = 0) as -> by (simpl in Hskip; lia).
    destruct (match_at_line (a :: pat) [] b Hrej) as [[E1 E2]|(m & x' & E & E1 & E2)].
    + rewrite !app_nil_l in *. cbn [findall_from]. by rewrite E1, E2.
    + exfalso. symmetry in E. apply app_eq_nil in E as [-> ->].
      rewrite !app_nil_l in *.
      apply Forall_cons in Hrej as [Ha _].
      destruct a as [p|p]; simpl in Ha.
      * rewrite match_at_one, Ha in E1. done.
      * rewrite match_at_many1, Ha in E1. done.
  - rewrite <- !app_comm_cons. destruct skip as [|k].
    + cbn [findall_from]. rewrite !app_comm_cons.
      destruct (match_at_line (a :: pat) (c :: x) b Hrej) as [[-> ->]|(m & x' & E & -> & ->)].
      * apply IH. lia.
      * rewrite E, <- !app_assoc, !length_app.
        replace (length m + _ - _) with (length m) by (simpl; lia).
        replace (length m + (length x' + length [nl]) - (length x' + length [nl]))
          with (length m) by lia.
        rewrite !take_app_length. cbn [app]. f_equal. apply IH.
        apply (f_equal length) in E. rewrite length_app in E. simpl in E. lia.
    + cbn [findall_from]. apply IH. simpl in Hskip. lia.
Qed.

(** A text made of lines is scanned line by line. *)
Lemma findall_lines a pat (lines : list str) :
  rejects nl (a :: pat) →
  findall (a :: pat) (concat ((λ x, x ++ [nl]) <$> lines))
  = concat ((λ x, findall (a :: pat) (x ++ [nl])) <$> lines).
Proof.
  intros Hrej. unfold findall. induction lines as [|x lines IH]; [done|].
  csimpl. rewrite <- app_assoc. cbn [app].
  rewrite findall_from_line by (done || lia). by rewrite IH.
Qed.

Lemma uint_digits (d : Decimal.uint) :
  forallb is_digit (lit (NilEmpty.string_of_uint d)) = true.
Proof. induction d; simpl; done. Qed.

Lemma str_of_nat_digits n :
  str_of_nat n ≠ [] ∧ forallb is_digit (str_of_nat n) = true.
Proof.
  unfold str_of_nat. split; [|apply uint_digits].
  destruct (Nat.to_uint n) eqn:E; try done.
  pose proof (Unsigned.of_to n) as H. rewrite E in H. simpl in H. subst n. done.
Qed.

Lemma rejects_nl_pg_pattern : rejects nl pg_pattern.
Proof. repeat constructor. Qed.

Lemma group_writes_lines gh : group_writes gh = (λ x, x ++ [nl]) <$> group_lines gh.
Proof.
  unfold group_writes, group_lines. rewrite fmap_app, <- list_fmap_compose. csimpl.
  rewrite <- !app_assoc. do 2 f_equal.
  apply list_fmap_ext. intros _ host _. simpl. by rewrite <- !app_assoc.
Qed.

Lemma create_patch_group_files_lines patch_groups :
  create_patch_group_files patch_groups
  = concat ((λ x, x ++ [nl]) <$> concat (group_lines <$> patch_groups)).
Proof.
  unfold create_patch_group_files. f_equal.
  induction patch_groups as [|gh groups IH]; [done|].
  rewrite !fmap_cons. cbn [concat]. by rewrite fmap_app, IH, group_writes_lines.
Qed.

Lemma findall_from_0_cons pat c s :
  findall_from pat 0 (c :: s)
  = match match_at pat (c :: s) with
    | Some rest =>
        take (length (c :: s) - length rest) (c :: s)
        :: findall_from pat (length (c :: s) - length rest - 1) s
    | None => findall_from pat 0 s
    end.
Proof. reflexivity. Qed.

(** A match found at the start is reported, and the scan resumes after
    it. *)
Lemma findall_match pat m rest :
  m ≠ [] → match_at pat (m ++ rest) = Some rest →
  findall pat (m ++ rest) = m :: findall pat rest.
Proof.
  intros Hm Hrest. unfold findall. destruct m as [|c m]; [done|].
  rewrite <- app_comm_cons, findall_from_0_cons, app_comm_cons, Hrest.
  rewrite length_app.
  replace (length (c :: m) + length rest - length rest) with (length (c :: m)) by lia.
  rewrite take_app_length. cbn [length].
  replace (S (length m) - 1) with (length m) by lia.
  by rewrite findall_from_skip.
Qed.

(** The line of a group named [pg<n>] holds one occurrence. *)
Lemma findall_key_line n :
  findall pg_pattern ((pg n ++ lit ":") ++ [nl]) = [pg n ++ lit ":"].
Proof.
  destruct (str_of_nat_digits n) as [Hne Hdig].
  rewrite findall_match; [done | by destruct (pg n) |].
  unfold pg. set (ds := str_of_nat n) in *.
  rewrite <- !app_assoc. change (lit "pg" ++ ?s) with ("p" :: "g" :: s).
  unfold pg_pattern. rewrite !match_at_one.
  replace (is_char "p" "p") with true by done.
  replace (is_char "g" "g") with true by done.
  apply match_at_many1_run; done.
Qed.

Lemma findall_hosts_line : findall pg_pattern (lit "  hosts:" ++ [nl]) = [].
Proof. reflexivity. Qed.

Lemma length_concat {A} (ls : list (list A)) :
  length (concat ls) = sum_list (length <$> ls).
Proof. induction ls as [|l ls IH]; [done|]. csimpl. by rewrite length_app, IH. Qed.

Lemma count_patch_groups_lines (lines : list str) :
  count_patch_groups (concat ((λ x, x ++ [nl]) <$> lines))
  = sum_list ((λ x, count_patch_groups (x ++ [nl])) <$> lines).
Proof.
  unfold count_patch_groups, pg_pattern.
  rewrite findall_lines by apply rejects_nl_pg_pattern.
  rewrite length_concat, <- list_fmap_compose. done.
Qed.

(** The file of groups named [pg<n>] holds one occurrence per group, and
    those of the host lines. *)
Lemma count_patch_groups_named (patch_groups : list (str * list str)) :
  Forall (λ gh, ∃ n, gh.1 = pg n) patch_groups →
  count_patch_groups (create_patch_group_files patch_groups)
  = length patch_groups + host_line_matches patch_groups.
Proof.
  intros Hnamed. rewrite create_patch_group_files_lines, count_patch_groups_lines.
  unfold host_line_matches, Dict.values.
  induction Hnamed as [|[k hosts] groups [n Hk] _ IH]; [done|].
  simpl in Hk. subst k. rewrite !fmap_cons. cbn [concat fst snd length].
  rewrite !fmap_app, !sum_list_with_app, IH.
  unfold group_lines. cbn [fst snd]. rewrite fmap_app, sum_list_with_app.
  rewrite !fmap_cons, fmap_nil. cbn [sum_list_with].
  unfold count_patch_groups at 1 2. rewrite findall_key_line, findall_hosts_line.
  cbn [length id]. rewrite <- list_fmap_compose.
  assert ((λ x, count_patch_groups (x ++ [nl])) ∘ (λ host, lit "    " ++ host ++ lit ":") <$> hosts
          = (λ host, count_patch_groups (host_line host)) <$> hosts) as ->.
  { apply list_fmap_ext. intros _ host _. simpl. unfold host_line.
    by rewrite <- !app_assoc. }
  lia.
Qed.

(** C10.  The round trip fails for a host whose name ends in
    [pg<digits>]: one instance [db-pg7] of role [db] gives the single group
    [pg1], the file emitted for it holds the line of the host, and
    [count_patch_groups] returns 2 on that file, not 1, the number of groups
    of the mapping.  The loop [for i in range(1, n + 1)] of the driver then
    names the patch groups [pg1] and [pg2], and the mapping has no [pg2]. *)
Theorem count_patch_groups_overcounts :
  let instances :=
    [ {| name := lit "db-pg7";
         labels := [(lit "region", lit "us-central1"); (lit "role", lit "db")] |} ] in
  let hosts_by_role := [(lit "db", [lit "db-pg7"])] in
  let patch_groups := create_patch_groups hosts_by_role in
  let content := create_patch_group_files patch_groups in
  get_hosts instances = [(lit "us-central1", hosts_by_role)]
  ∧ patch_groups = [(lit "pg1", [lit "db-pg7"])]
  ∧ Dict.keys patch_groups = pg <$> seq 1 1
  ∧ content = lit "pg1:" ++ [nl] ++ lit "  hosts:" ++ [nl] ++ lit "    db-pg7:" ++ [nl]
  ∧ findall pg_pattern content = [lit "pg1:"; lit "pg7:"]
  ∧ count_patch_groups content = 2
  ∧ length patch_groups = 1
  ∧ patchgroups (count_patch_groups content) = [lit "pg1"; lit "pg2"]
  ∧ Dict.get (lit "pg2") patch_groups = None.
Proof. repeat split; vm_compute; reflexivity. Qed.

(** For a mapping whose keys are [pg1 .. pgK], [count_patch_groups] on the
    emitted file returns [K] plus the number of occurrences of [pg<digits>:]
    in the lines written for hosts; it returns [K] when no host line holds
    one. *)
Theorem count_patch_groups_round_trip (patch_groups : list (str * list str)) (K : nat) :
  Dict.keys patch_groups ≡ₚ pg <$> seq 1 K →
  count_patch_groups (create_patch_group_files patch_groups)
  = K + host_line_matches patch_groups
  ∧ (Forall (λ host, findall pg_pattern (host_line host) = [])
       (concat (Dict.values patch_groups)) →
     count_patch_groups (create_patch_group_files patch_groups) = K).
Proof.
  intros Hkeys.
  assert (count_patch_groups (create_patch_group_files patch_groups)
          = K + host_line_matches patch_groups) as Hcount.
  { rewrite count_patch_groups_named.
    - f_equal. apply Permutation_length in Hkeys.
      unfold Dict.keys in Hkeys. by rewrite !length_fmap, length_seq in Hkeys.
    - apply Forall_forall. intros [k hosts] Hin. simpl.
      assert (k ∈ Dict.keys patch_groups) as Hk.
      { unfold Dict.keys. apply list_elem_of_fmap. by exists (k, hosts). }
      rewrite Hkeys in Hk. apply list_elem_of_fmap in Hk as (n & -> & _). by exists n. }
  split; [done|]. intros Hnone. rewrite Hcount.
  assert (host_line_matches patch_groups = 0) as ->; [|lia].
  unfold host_line_matches.
  induction Hnone as [|host hosts Hhost _ IH]; [done|].
  csimpl. unfold count_patch_groups at 1. rewrite Hhost. simpl. exact IH.
Qed.

Lemma count_patch_groups_round_trip_witness :
  let patch_groups :=
    [(lit "pg2", [lit "h1"]); (lit "pg1", [lit "a"; lit "h2"]); (lit "pg3", [lit "c"])] in
  count_patch_groups (create_patch_group_files patch_groups) = 3.
Proof.
  intros patch_groups.
  destruct (count_patch_groups_round_trip patch_groups 3) as [_ H].
  - change (Dict.keys patch_groups) with [pg 2; pg 1; pg 3].
    change (pg <$> seq 1 3) with [pg 1; pg 2; pg 3]. apply perm_swap.
  - apply H. vm_compute. repeat constructor.
Defined.

(** ** Claims about [generate_package_yaml] *)

Example strip_example : strip (lit "  web 1 " ++ [nl]) = lit "web 1".
Proof. vm_compute. reflexivity. Qed.

Example split_example :
  split "," (lit "vim, curl,,git") = [lit "vim"; lit " curl"; lit ""; lit "git"].
Proof. vm_compute. reflexivity. Qed.

Example append_skip_file_example :
  append_skip_file (Some (lit "a" ++ [nl])) [lit " b "; lit "a"; lit "b"; lit "c"]
  = lit "a" ++ [nl] ++ lit "b" ++ [nl] ++ lit "c" ++ [nl].
Proof. vm_compute. reflexivity. Qed.

(** C8.  The set is built from the raw pieces of the split and the pieces
    are stripped afterwards, so two spellings of a name that differ in
    blanks survive the set and come out equal: for ["vim, vim"] every
    iteration order of the set writes [vim] twice. *)
Theorem generate_package_yaml_duplicates :
  (∃ written, generate_package_yaml (lit "vim, vim") written)
  ∧ (∀ written, generate_package_yaml (lit "vim, vim") written →
                written = [lit "vim"; lit "vim"] ∧ ¬ NoDup written).
Proof.
  assert (split "," (lit "vim, vim") = [lit "vim"; lit " vim"]) as Hsplit
    by (vm_compute; reflexivity).
  split.
  - exists (strip <$> [lit "vim"; lit " vim"]), [lit "vim"; lit " vim"].
    split; [|done]. rewrite Hsplit. split; [decide_by_compute | done].
  - intros written (order & [Hnd Hel] & ->). rewrite Hsplit in Hel.
    assert (order ≡ₚ [lit "vim"; lit " vim"]) as Hperm.
    { apply NoDup_Permutation; [done | decide_by_compute | done]. }
    assert (strip <$> order = [lit "vim"; lit "vim"]) as ->.
    { symmetry in Hperm.
      apply Permutation_length_2_inv in Hperm as [-> | ->]; vm_compute; reflexivity. }
    split; [done|]. intros Hdup%NoDup_cons_1_1. apply Hdup.
    rewrite list_elem_of_singleton. done.
Qed.

(** ** Facts about [strip] and lines *)

Lemma rstrip_snoc_space x w : is_space w = true → rstrip (x ++ [w]) = rstrip x.
Proof.
  intros Hw. induction x as [|c x IH]; simpl.
  - by rewrite Hw.
  - by rewrite IH.
Qed.

Lemma rstrip_idemp x : rstrip (rstrip x) = rstrip x.
Proof.
  induction x as [|c x IH]; [done|]. simpl.
  destruct (rstrip x) as [|d r] eqn:E.
  - destruct (is_space c) eqn:Hc; simpl; [done | by rewrite Hc].
  - change (rstrip (c :: d :: r)) with
      (match rstrip (d :: r) with [] => if is_space c then [] else [c] | r' => c :: r' end).
    by rewrite IH.
Qed.

Lemma lstrip_head s :
  lstrip s = [] ∨ ∃ c t, lstrip s = c :: t ∧ is_space c = false.
Proof.
  induction s as [|c s IH]; simpl; [by left|].
  destruct (is_space c) eqn:Hc; [done|]. right. by exists c, s.
Qed.

Lemma rstrip_head c t : is_space c = false → ∃ r, rstrip (c :: t) = c :: r.
Proof.
  intros Hc. simpl. destruct (rstrip t) as [|d r].
  - rewrite Hc. by exists [].
  - by exists (d :: r).
Qed.

(** A stripped name written as a line reads back as itself. *)
Lemma strip_line h : strip (strip h ++ [nl]) = strip h.
Proof.
  unfold strip at 2 3. destruct (lstrip_head h) as [->|(c & t & -> & Hc)]; [done|].
  destruct (rstrip_head c t Hc) as [r Hr]. rewrite Hr.
  unfold strip. rewrite <- app_comm_cons. cbn [lstrip]. rewrite Hc.
  rewrite app_comm_cons, rstrip_snoc_space by done.
  by rewrite <- Hr, rstrip_idemp.
Qed.

Lemma newlines_no_cr t : cr ∉ t → newlines_from false t = t.
Proof.
  induction t as [|c t IH]; [done|].
  rewrite not_elem_of_cons. intros [Hc Ht]. simpl.
  rewrite bool_decide_eq_false_2 by done.
  rewrite IH by done. case_bool_decide; by subst.
Qed.

Lemma newlines_from_app after_cr x t :
  newlines_from after_cr (x ++ nl :: t)
  = newlines_from after_cr (x ++ [nl]) ++ newlines_from false t.
Proof.
  revert after_cr. induction x as [|c x IH]; intros after_cr.
  - simpl. by destruct after_cr.
  - simpl. destruct (bool_decide (c = cr)); [by rewrite IH|].
    destruct (bool_decide (c = nl)); [destruct after_cr|]; by rewrite IH.
Qed.

Lemma newlines_from_ends_nl x :
  (∃ y, newlines_from false (x ++ [nl]) = y ++ [nl])
  ∧ ends_nl (newlines_from true (x ++ [nl])).
Proof.
  induction x as [|c x [[y IH1] IH2]].
  - split; [by exists [] | by left].
  - assert (∃ z, nl :: newlines_from true (x ++ [nl]) = z ++ [nl]) as [z Hz].
    { destruct IH2 as [->|[z ->]]; [by exists [] | by exists (nl :: z)]. }
    simpl. destruct (bool_decide (c = cr)).
    + split; [by exists z | right; by exists z].
    + destruct (bool_decide (c = nl)).
      * rewrite IH1. split; [by exists (nl :: y) | right; by exists y].
      * rewrite IH1. split; [by exists (c :: y) | right; by exists (c :: y)].
Qed.

Lemma readlines_nonempty s : s ≠ [] → readlines s ≠ [].
Proof.
  destruct s as [|c s]; [done|]. intros _. simpl.
  destruct (bool_decide (c = nl)); [done|]. by destruct (readlines s).
Qed.

Lemma readlines_app x t :
  readlines (x ++ nl :: t) = readlines (x ++ [nl]) ++ readlines t.
Proof.
  induction x as [|c x IH]; [done|]. simpl.
  destruct (bool_decide (c = nl)); [by rewrite IH|].
  rewrite IH. pose proof (readlines_nonempty (x ++ [nl])) as Hne.
  destruct (readlines (x ++ [nl])); [|done].
  exfalso. apply Hne; [|done]. by destruct x.
Qed.

Lemma readlines_line h : nl ∉ h → readlines (h ++ [nl]) = [h ++ [nl]].
Proof.
  induction h as [|c h IH]; [done|].
  rewrite not_elem_of_cons. intros [Hc Hh]. simpl.
  rewrite bool_decide_eq_false_2 by done. by rewrite IH.
Qed.

Lemma readlines_written (written : list str) :
  Forall (λ h, nl ∉ h) written →
  readlines (concat ((λ h, h ++ [nl]) <$> written)) = (λ h, h ++ [nl]) <$> written.
Proof.
  induction 1 as [|h written Hh _ IH]; [done|].
  csimpl. rewrite <- app_assoc. cbn [app].
  by rewrite readlines_app, readlines_line, IH.
Qed.

(** The stripped lines of a well-ended file to which stripped, one-line
    names have been appended. *)
Lemma stripped_lines_append (old : str) (written : list str) :
  ends_nl old →
  Forall (λ h, (nl ∉ h) ∧ (cr ∉ h) ∧ ∃ h0, h = strip h0) written →
  stripped_lines (old ++ concat ((λ h, h ++ [nl]) <$> written))
  = stripped_lines old ++ written.
Proof.
  intros Hold Hw. set (t := concat ((λ h, h ++ [nl]) <$> written)).
  assert (newlines_from false t = t) as Ht.
  { apply newlines_no_cr. unfold t. clear Hold.
    induction Hw as [|h w (_ & Hcr & _) _ IH]; csimpl; [apply not_elem_of_nil|].
    rewrite !elem_of_app, list_elem_of_singleton. intros [[?|?]|?]; done. }
  assert (strip <$> readlines t = written) as Hlines.
  { unfold t. rewrite readlines_written.
    - rewrite <- list_fmap_compose. clear Hold t Ht.
      induction Hw as [|h w (_ & _ & h0 & ->) _ IH]; [done|].
      csimpl. by rewrite strip_line, IH.
    - eapply Forall_impl; [exact Hw|]. by intros h (? & _). }
  unfold stripped_lines, universal_newlines.
  destruct Hold as [->|[x ->]].
  - by rewrite app_nil_l, Ht, Hlines.
  - rewrite <- app_assoc. cbn [app]. rewrite newlines_from_app, Ht.
    destruct (newlines_from_ends_nl x) as [[y ->] _].
    rewrite <- app_assoc. cbn [app]. rewrite readlines_app, fmap_app, Hlines. done.
Qed.

(** ** Claims about [append_skip_file] *)

Lemma foldl_skip_step (text : str) (existing : gset str) (hostnames : list str) :
  foldl skip_step (text, existing) hostnames
  = (text ++ concat ((λ h, h ++ [nl]) <$> skip_written existing hostnames),
     list_to_set (skip_written existing hostnames) ∪ existing).
Proof.
  revert text existing. induction hostnames as [|hostname hostnames IH];
    intros text existing.
  - simpl. rewrite app_nil_r. f_equal. set_solver.
  - cbn [foldl skip_written]. unfold skip_step at 2. cbn [fst snd].
    destruct (decide (strip hostname ∈ existing)) as [Hin|Hni]; [apply IH|].
    rewrite IH. csimpl. rewrite <- !app_assoc. f_equal. set_solver.
Qed.

Lemma read_skip_file_default content :
  read_skip_file content = list_to_set (stripped_lines (default [] content)).
Proof. destruct content; [done|]. simpl. set_solver. Qed.

(** What a call appends: the names it writes, one per line. *)
Lemma append_skip_file_written content hostnames :
  append_skip_file content hostnames
  = default [] content
    ++ concat ((λ h, h ++ [nl]) <$> skip_written (read_skip_file content) hostnames).
Proof. unfold append_skip_file. by rewrite foldl_skip_step. Qed.

(** A name is written only if it is new, and then only once: the names
    written by a call are pairwise distinct, none of them was known, each is
    the stripped form of a given hostname, and every given hostname is known
    afterwards. *)
Lemma skip_written_spec (existing : gset str) (hostnames : list str) :
  NoDup (skip_written existing hostnames)
  ∧ (∀ h, h ∈ skip_written existing hostnames →
          (h ∉ existing) ∧ ∃ hostname, hostname ∈ hostnames ∧ h = strip hostname)
  ∧ (∀ hostname, hostname ∈ hostnames →
          strip hostname ∈ existing ∨ strip hostname ∈ skip_written existing hostnames).
Proof.
  revert existing. induction hostnames as [|hostname hostnames IH]; intros existing.
  - split; [constructor|]. split; [by intros h ?%elem_of_nil | by intros h ?%elem_of_nil].
  - cbn [skip_written].
    destruct (decide (strip hostname ∈ existing)) as [Hin|Hni].
    + destruct (IH existing) as (Hnd & Hfresh & Hcov). split; [done|]. split.
      * intros h Hh. destruct (Hfresh h Hh) as (? & h0 & ? & ?).
        split; [done|]. exists h0. rewrite elem_of_cons. auto.
      * intros h0 [->|Hh0]%elem_of_cons; [by left | by apply Hcov].
    + destruct (IH ({[strip hostname]} ∪ existing)) as (Hnd & Hfresh & Hcov). split; [|split].
      * apply NoDup_cons. split; [|done].
        intros Hin. apply Hfresh in Hin as [Hin _]. set_solver.
      * intros h [->|Hh]%elem_of_cons.
        -- split; [done|]. exists hostname. rewrite elem_of_cons. auto.
        -- destruct (Hfresh h Hh) as (? & h0 & ? & ?).
           split; [set_solver|]. exists h0. rewrite elem_of_cons. auto.
      * intros h0 [->|Hh0]%elem_of_cons.
        -- right. rewrite elem_of_cons. by left.
        -- destruct (Hcov h0 Hh0) as [[?%elem_of_singleton|?]%elem_of_union|?].
           ++ right. rewrite elem_of_cons. by left.
           ++ by left.
           ++ right. rewrite elem_of_cons. by right.
Qed.

Lemma skip_written_known (existing : gset str) (hostnames : list str) :
  (∀ hostname, hostname ∈ hostnames → strip hostname ∈ existing) →
  skip_written existing hostnames = [].
Proof.
  induction hostnames as [|hostname hostnames IH]; intros Hknown; [done|].
  cbn [skip_written]. rewrite decide_True.
  - apply IH. intros h Hh. apply Hknown. rewrite elem_of_cons. by right.
  - apply Hknown. rewrite elem_of_cons. by left.
Qed.

(** The call does not clean what it finds: a name that is already on two
    lines of the file stays on two lines. *)
Lemma append_skip_file_counterexample :
  let content := Some (lit "a" ++ [nl] ++ lit "a" ++ [nl]) in
  let hostnames := [lit "a"] in
  lit "a" ∈ hostnames
  ∧ line_count (strip (lit "a")) (append_skip_file content hostnames) = 2.
Proof. split; [decide_by_compute | vm_compute; reflexivity]. Qed.

(** Each condition of the amended claim is needed.  A file that does not
    end with a line feed glues the first name written to its last line: *)
Example append_skip_file_glued :
  let result := append_skip_file (Some (lit "xa" ++ [nl] ++ lit "x")) [lit "a"; lit "xa"] in
  result = lit "xa" ++ [nl] ++ lit "xa" ++ [nl]
  ∧ line_count (lit "xa") result = 2.
Proof. split; vm_compute; reflexivity. Qed.

(** and a name with a line feed inside is written as two lines, neither of
    which is the name the set remembers: *)
Example append_skip_file_two_lines :
  let result := append_skip_file None [lit "a" ++ [nl] ++ lit "b"; lit "a"] in
  result = lit "a" ++ [nl] ++ lit "b" ++ [nl] ++ lit "a" ++ [nl]
  ∧ line_count (lit "a") result = 2.
Proof. split; vm_compute; reflexivity. Qed.

(** C7 (amended).  [append_skip_file] writes a hostname only when its
    stripped form is neither a stripped line of the file nor written earlier
    in the same call: the call appends to the file the lines of [written],
    whose names are pairwise distinct, are stripped forms of given hostnames
    and are no stripped line of the prior file, and every stripped hostname
    is a stripped line of the prior file or is written; this holds for every
    prior content and every list of hostnames.  When the prior file is
    absent, empty or ends with a line feed, its stripped lines are pairwise
    distinct, and no stripped hostname contains a line feed or carriage
    return, then every stripped hostname occurs on exactly one line of the
    resulting file, the stripped lines of the resulting file are pairwise
    distinct, and repeating the call with the same hostnames leaves the file
    unchanged. *)
Theorem append_skip_file_dedup (content : option str) (hostnames : list str) :
  let old := default [] content in
  let written := skip_written (read_skip_file content) hostnames in
  let result := append_skip_file content hostnames in
  (result = old ++ concat ((λ h, h ++ [nl]) <$> written)
   ∧ NoDup written
   ∧ (∀ h, h ∈ written →
        h ∉ stripped_lines old ∧ ∃ hostname, hostname ∈ hostnames ∧ h = strip hostname)
   ∧ (∀ hostname, hostname ∈ hostnames →
        strip hostname ∈ stripped_lines old ∨ strip hostname ∈ written))
  ∧ (ends_nl old →
     NoDup (stripped_lines old) →
     Forall (λ hostname, (nl ∉ strip hostname) ∧ (cr ∉ strip hostname)) hostnames →
     stripped_lines result = stripped_lines old ++ written
     ∧ NoDup (stripped_lines result)
     ∧ (∀ hostname, hostname ∈ hostnames → line_count (strip hostname) result = 1)
     ∧ append_skip_file (Some result) hostnames = result).
Proof.
  intros old written result.
  destruct (skip_written_spec (read_skip_file content) hostnames)
    as (Hnd & Hfresh & Hcov). fold written in Hnd, Hfresh, Hcov.
  assert (result = old ++ concat ((λ h, h ++ [nl]) <$> written)) as Hres
    by apply append_skip_file_written.
  assert (∀ h, h ∈ written → h ∉ stripped_lines old) as Hnew.
  { intros h [Hh _]%Hfresh. rewrite read_skip_file_default in Hh. set_solver. }
  assert (∀ hostname, hostname ∈ hostnames →
            strip hostname ∈ stripped_lines old ∨ strip hostname ∈ written) as Hcov'.
  { intros hostname Hin. destruct (Hcov hostname Hin) as [Hk|Hw]; [left | by right].
    rewrite read_skip_file_default in Hk. set_solver. }
  split.
  { split; [done|]. split; [done|]. split; [|done].
    intros h Hh. split; [by apply Hnew|]. by destruct (Hfresh h Hh) as [_ ?]. }
  intros Hends Hold Hclean.
  assert (stripped_lines result = stripped_lines old ++ written) as Hlines.
  { rewrite Hres. apply stripped_lines_append; [done|].
    apply Forall_forall. intros h (_ & hostname & Hin & ->)%Hfresh.
    rewrite Forall_forall in Hclean. destruct (Hclean hostname Hin) as [? ?].
    repeat split; [done | done | by exists hostname]. }
  assert (NoDup (stripped_lines result)) as Hnodup.
  { rewrite Hlines. apply NoDup_app. split; [done|]. split; [|done].
    intros h Hh1 Hh2. by apply (Hnew h). }
  assert (∀ hostname, hostname ∈ hostnames → strip hostname ∈ stripped_lines result) as Hall.
  { intros hostname Hin. rewrite Hlines, elem_of_app. by apply Hcov'. }
  split; [done|]. split; [done|]. split.
  - intros hostname Hin. unfold line_count.
    pose proof (Hall hostname Hin) as Hmem.
    revert Hnodup Hmem. generalize (stripped_lines result) as ls.
    induction ls as [|l ls IH]; intros Hnd' Hmem; [by apply elem_of_nil in Hmem|].
    apply NoDup_cons in Hnd' as [Hl Hnd'].
    destruct (decide (l = strip hostname)) as [->|Hne].
    + rewrite filter_cons_True by done. cbn [length]. f_equal.
      assert (filter (λ l, l = strip hostname) ls = []) as ->; [|done].
      apply elem_of_nil_inv. intros x [-> ?]%list_elem_of_filter. done.
    + rewrite filter_cons_False by done. apply IH; [done|].
      apply elem_of_cons in Hmem as [?|?]; [congruence | done].
  - rewrite append_skip_file_written. cbn [default].
    rewrite skip_written_known; [by rewrite app_nil_r|].
    intros hostname Hin. cbn [read_skip_file].
    apply elem_of_list_to_set. by apply Hall.
Qed.

Lemma append_skip_file_dedup_witness :
  let content := Some (lit "web-1" ++ [nl] ++ lit "db-1" ++ [nl]) in
  let hostnames := [lit " db-2 "; lit "web-1"; lit "db-2"] in
  append_skip_file content hostnames
  = lit "web-1" ++ [nl] ++ lit "db-1" ++ [nl] ++ lit "db-2" ++ [nl]
  ∧ NoDup (stripped_lines (append_skip_file content hostnames))
  ∧ line_count (strip (lit " db-2 ")) (append_skip_file content hostnames) = 1.
Proof.
  intros content hostnames.
  destruct (append_skip_file_dedup content hostnames) as [_ Hclean].
  destruct Hclean as (_ & Hnd & Hone & _).
  - right. exists (lit "web-1" ++ [nl] ++ lit "db-1"). reflexivity.
  - decide_by_compute.
  - decide_by_compute.
  - split; [vm_compute; reflexivity|]. split; [exact Hnd|].
    apply Hone. decide_by_compute.
Defined.

(** * Further properties of the scripts *)

(** ** [create_patch_groups]: no host lost, group names *)

Lemma values_update_extend (k : str) (hs : list str) (d : list (str * list str)) :
  concat (Dict.values (Dict.update [] (λ l, l ++ hs) k d))
  ≡ₚ concat (Dict.values d) ++ hs.
Proof.
  unfold Dict.values. induction d as [|[k' v] d IH]; csimpl.
  - by rewrite app_nil_r.
  - case_decide; csimpl.
    + rewrite <- !app_assoc. apply Permutation_app_head, Permutation_app_comm.
    + rewrite IH. by rewrite app_assoc.
Qed.

Lemma values_split_sharddb (hosts_by_role : list (str * list str)) :
  NoDup (Dict.keys hosts_by_role) →
  concat (Dict.values hosts_by_role)
  ≡ₚ concat (Dict.values (non_sharddb_roles hosts_by_role))
     ++ default [] (Dict.get sharddb hosts_by_role).
Proof.
  unfold Dict.keys. induction hosts_by_role as [|[r hosts] hbr IH]; [done|].
  csimpl. intros [Hr Hnd]%NoDup_cons. unfold non_sharddb_roles.
  destruct (decide (sharddb = r)) as [<-|Hne].
  - rewrite filter_cons_False by (simpl; auto).
    fold (non_sharddb_roles hbr). rewrite non_sharddb_roles_id by done.
    simpl. apply Permutation_app_comm.
  - rewrite filter_cons_True by (simpl; congruence).
    fold (non_sharddb_roles hbr). unfold Dict.values in *. csimpl.
    rewrite (IH Hnd) at 1. by rewrite app_assoc.
Qed.

Lemma create_patch_groups_Permutation (hosts_by_role : list (str * list str)) :
  NoDup (Dict.keys hosts_by_role) →
  concat (Dict.values (create_patch_groups hosts_by_role))
  ≡ₚ concat (Dict.values hosts_by_role).
Proof.
  intros Hnd. rewrite (values_split_sharddb hosts_by_role Hnd).
  unfold create_patch_groups, place_sharddb, dd_extend.
  destruct (Dict.get sharddb hosts_by_role) as [sh|]; simpl.
  - case_decide.
    + by rewrite values_update_extend, round_robin_Permutation.
    + rewrite !values_update_extend, round_robin_Permutation.
      by rewrite <- app_assoc, take_drop.
  - by rewrite round_robin_Permutation, app_nil_r.
Qed.

(** X1.  [create_patch_groups] neither drops nor duplicates a host: the
    hosts of all groups together are the hosts of all roles, the reserved
    role included, whatever its length. *)
Theorem create_patch_groups_conserves_hosts (hosts_by_role : list (str * list str)) :
  NoDup (Dict.keys hosts_by_role) →
  concat (Dict.values (create_patch_groups hosts_by_role))
  ≡ₚ concat (Dict.values hosts_by_role).
Proof. apply create_patch_groups_Permutation. Qed.

Lemma create_patch_groups_conserves_hosts_witness :
  let hosts_by_role :=
    [(lit "web", [lit "a"; lit "b"; lit "c"]); (sharddb, [lit "h1"; lit "h2"; lit "h3"]);
     (lit "db", [lit "x"])] in
  concat (Dict.values (create_patch_groups hosts_by_role))
  ≡ₚ concat (Dict.values hosts_by_role).
Proof. apply create_patch_groups_conserves_hosts. decide_by_compute. Defined.

Lemma pg_seq (n : nat) : (λ i, pg (i + 1)) <$> seq 0 n = pg <$> seq 1 n.
Proof.
  rewrite <- fmap_S_seq, <- list_fmap_compose. apply list_fmap_ext.
  intros _ i _. simpl. by rewrite Nat.add_1_r.
Qed.

Lemma round_robin_keys roles :
  Dict.keys (round_robin roles) = pg <$> seq 1 (max_hosts roles).
Proof. by rewrite round_robin_dealt, dealt_keys, pg_seq. Qed.

Lemma pg_elem_seq n m : pg n ∈ pg <$> seq 1 m ↔ 1 ≤ n ≤ m.
Proof.
  rewrite list_elem_of_fmap. split.
  - intros (i & ->%pg_inj & Hi%elem_of_seq). lia.
  - intros Hn. exists n. split; [done|]. apply elem_of_seq. lia.
Qed.

Lemma create_patch_groups_keys (hosts_by_role : list (str * list str)) :
  Dict.keys (create_patch_groups hosts_by_role)
  ≡ₚ pg <$> seq 1 (max_hosts (non_sharddb_roles hosts_by_role)
                    `max` sharddb_groups hosts_by_role).
Proof.
  unfold sharddb_groups, create_patch_groups, place_sharddb, dd_extend.
    set (roles := non_sharddb_roles hosts_by_role).
    pose proof (round_robin_keys roles) as Hk.
    destruct (Dict.get sharddb hosts_by_role) as [sh|];
      [|by rewrite Nat.max_0_r, Hk].
    rewrite <- pg_1, <- pg_2. case_decide.
    - rewrite DictFacts.keys_update, Hk. case_decide as Hin.
      + apply pg_elem_seq in Hin. by replace (max_hosts roles `max` 1) with (max_hosts roles) by lia.
      + rewrite pg_elem_seq in Hin.
        assert (max_hosts roles = 0) as -> by lia. done.
    - rewrite !DictFacts.keys_update, Hk.
      destruct (decide (pg 2 ∈ pg <$> seq 1 (max_hosts roles))) as [Hin2|Hni2].
      + apply pg_elem_seq in Hin2.
        rewrite decide_True by (apply pg_elem_seq; lia).
        by replace (max_hosts roles `max` 2) with (max_hosts roles) by lia.
      + rewrite pg_elem_seq in Hni2.
        destruct (max_hosts roles) as [|[|m]] eqn:Em; [| |lia].
        * rewrite decide_False; [apply perm_swap|].
          intros [E%pg_inj|E%elem_of_nil]%elem_of_cons; done.
        * rewrite decide_True; [done|]. apply elem_of_app. left.
          apply pg_elem_seq. lia.
Qed.

(** X2.  The groups returned are named [pg1 .. pgK] without gap or
    repetition, where [K] is the length of the longest non-reserved role
    list, raised to 1 by a single reserved host and to 2 by any other
    reserved list. *)
Theorem create_patch_groups_names (hosts_by_role : list (str * list str)) :
  let K := max_hosts (non_sharddb_roles hosts_by_role) `max` sharddb_groups hosts_by_role in
  Dict.keys (create_patch_groups hosts_by_role) ≡ₚ pg <$> seq 1 K
  ∧ NoDup (Dict.keys (create_patch_groups hosts_by_role))
  ∧ length (create_patch_groups hosts_by_role) = K.
Proof.
  intros K. pose proof (create_patch_groups_keys hosts_by_role) as Hperm. fold K in Hperm.
  assert (NoDup (Dict.keys (create_patch_groups hosts_by_role))) as Hnd.
  { rewrite Hperm. apply NoDup_fmap_2_strong; [|apply NoDup_seq].
    intros n m _ _. apply pg_inj. }
  split; [done|]. split; [done|].
  apply Permutation_length in Hperm. unfold Dict.keys in Hperm.
  by rewrite !length_fmap, length_seq in Hperm.
Qed.

(** ** [get_hosts]: shape of the roster, no instance lost *)

Section update_facts.
Context {K V : Type} `{EqDecision K}.
Implicit Types (d : list (K * V)) (k : K) (f : V → V).

Lemma NoDup_keys_update dflt f k d :
  NoDup (Dict.keys d) → NoDup (Dict.keys (Dict.update dflt f k d)).
Proof.
  intros Hnd. rewrite DictFacts.keys_update. case_decide as Hin; [done|].
  apply NoDup_app. split; [done|]. split; [|apply NoDup_singleton].
  intros x Hx ->%list_elem_of_singleton. done.
Qed.

Lemma update_nonempty dflt f k d : Dict.update dflt f k d ≠ [].
Proof. destruct d as [|[k' v] d]; simpl; [done|]. case_decide; done. Qed.

Lemma Forall_update_key (Q : K → V → Prop) dflt f k d :
  Q k (f dflt) → (∀ v, Q k v → Q k (f v)) →
  Forall (λ kv, Q kv.1 kv.2) d →
  Forall (λ kv, Q kv.1 kv.2) (Dict.update dflt f k d).
Proof.
  intros Hd Hf. induction 1 as [|[k' v] d Hv Hall IH]; simpl.
  - by constructor.
  - case_decide as E; constructor; simpl in *; try done. subst k'. auto.
Qed.

(** Updating one entry adds to a measure of the dictionary what it adds to
    the measure of the entry. *)
Lemma measure_update {A} (h : V → list A) (x : list A) dflt f k d :
  h (f dflt) ≡ₚ x → (∀ v, h (f v) ≡ₚ h v ++ x) →
  concat (h <$> Dict.values (Dict.update dflt f k d))
  ≡ₚ concat (h <$> Dict.values d) ++ x.
Proof.
  intros Hd Hf. unfold Dict.values. induction d as [|[k' v] d IH]; csimpl.
  - by rewrite Hd, app_nil_r.
  - case_decide; csimpl.
    + rewrite Hf, <- !app_assoc. apply Permutation_app_head, Permutation_app_comm.
    + rewrite IH. by rewrite app_assoc.
Qed.
End update_facts.

Lemma bucket_wf roster i : roster_wf roster → roster_wf (bucket roster i).
Proof.
  intros [Hnd Hall]. unfold bucket.
  destruct (role_label i) as [[|c role]|]; [done| |done].
  split; [by apply NoDup_keys_update|].
  apply (Forall_update_key (λ _ by_role, by_role ≠ [] ∧ roles_wf by_role)); [| |done].
  - split; [done|]. split; [apply NoDup_singleton|]. by repeat constructor.
  - intros by_role (_ & Hk & Hr). split; [apply update_nonempty|].
    split; [by apply NoDup_keys_update|].
    apply (Forall_update_key (λ r hosts, r ≠ [] ∧ hosts ≠ [])); [done| |done].
    intros hosts _. split; [done|]. by destruct hosts.
Qed.

Lemma reverse_hosts_wf roster : roster_wf roster → roster_wf (reverse_hosts roster).
Proof.
  intros [Hnd Hall]. unfold reverse_hosts, roster_wf, Dict.keys in *.
  rewrite <- list_fmap_compose. split; [done|].
  apply Forall_fmap. eapply Forall_impl; [exact Hall|].
  intros [region by_role] (Hne & Hk & Hr). simpl in *.
  split; [by destruct by_role|]. unfold roles_wf, Dict.keys in *.
  rewrite <- list_fmap_compose. split; [done|].
  apply Forall_fmap. eapply Forall_impl; [exact Hr|].
  intros [r hosts] [? Hh]. simpl in *. split; [done|].
  intros E. apply Hh. apply (f_equal length) in E. rewrite length_reverse in E.
  by destruct hosts.
Qed.

Lemma foldl_bucket_wf instances : roster_wf (foldl bucket [] instances).
Proof.
  induction instances as [|i instances IH] using rev_ind.
  - split; [constructor | constructor].
  - rewrite foldl_snoc. by apply bucket_wf.
Qed.

Lemma get_hosts_roster_wf instances : roster_wf (get_hosts instances).
Proof. apply reverse_hosts_wf, foldl_bucket_wf. Qed.

(** X3.  The roster is a proper nested dictionary without empty parts: its
    regions are pairwise distinct, every region has at least one role, the
    roles of a region are pairwise distinct and not the empty string, and
    every role has at least one host. *)
Theorem get_hosts_well_formed (instances : list instance) :
  NoDup (Dict.keys (get_hosts instances))
  ∧ Forall (λ rb, rb.2 ≠ [] ∧ NoDup (Dict.keys rb.2)
                  ∧ Forall (λ rh, rh.1 ≠ [] ∧ rh.2 ≠ []) rb.2)
      (get_hosts instances).
Proof. exact (get_hosts_roster_wf instances). Qed.

Lemma roster_hosts_bucket roster i :
  roster_hosts (bucket roster i)
  ≡ₚ roster_hosts roster ++ (if decide (has_role i) then [name i] else []).
Proof.
  unfold bucket, roster_hosts.
  destruct (decide (has_role i)) as [Hr|Hr]; unfold has_role in Hr;
    destruct (role_label i) as [[|c role]|]; try done; try by rewrite app_nil_r.
  apply measure_update.
  - rewrite <- (list_fmap_id (Dict.values _)).
    rewrite (measure_update id [name i]); [done|done|done].
  - intros by_role. rewrite <- (list_fmap_id (Dict.values (Dict.update _ _ _ _))).
    rewrite (measure_update id [name i]); [|done|done].
    by rewrite list_fmap_id.
Qed.

Lemma roster_hosts_reverse roster :
  roster_hosts (reverse_hosts roster) ≡ₚ roster_hosts roster.
Proof.
  unfold roster_hosts, reverse_hosts, Dict.values.
  induction roster as [|[region by_role] roster IH]; [done|].
  csimpl. rewrite IH. apply Permutation_app_tail.
  clear. induction by_role as [|[r hosts] by_role IH]; [done|].
  csimpl. by rewrite IH, reverse_Permutation.
Qed.

(** X4.  No instance is lost or repeated by the bucketing: the host names
    of the roster, all regions and roles together, are the names of the
    listed instances that have a role. *)
Theorem get_hosts_conserves_instances (instances : list instance) :
  roster_hosts (get_hosts instances) ≡ₚ name <$> filter has_role instances.
Proof.
  unfold get_hosts. rewrite roster_hosts_reverse.
  induction instances as [|i instances IH] using rev_ind; [done|].
  rewrite foldl_snoc, roster_hosts_bucket, IH, filter_app, fmap_app.
  apply Permutation_app_head.
  case_decide; [by rewrite filter_cons_True | by rewrite filter_cons_False].
Qed.

(** ** [generate_patch_groups]: from the listing to the files *)

Lemma patch_group_filename_inj r1 r2 :
  patch_group_filename r1 = patch_group_filename r2 → r1 = r2.
Proof. unfold patch_group_filename. by intros E%app_inv_head%app_inv_tail. Qed.

Lemma create_patch_group_files_nonempty patch_groups :
  patch_groups ≠ [] → create_patch_group_files patch_groups ≠ [].
Proof.
  destruct patch_groups as [|[k hosts] groups]; [done|]. intros _.
  unfold create_patch_group_files. csimpl. by destruct k.
Qed.

Lemma roles_wf_groups (by_role : list (str * list str)) :
  by_role ≠ [] → roles_wf by_role →
  create_patch_groups by_role ≠ []
  ∧ Forall (λ kg, kg.2 ≠ []) (create_patch_groups by_role)
  ∧ concat (Dict.values (create_patch_groups by_role)) ≡ₚ concat (Dict.values by_role).
Proof.
  intros Hne [Hnd Hall].
  pose proof (create_patch_groups_Permutation by_role Hnd) as Hperm.
  split; [|split; [|done]].
  - intros E. rewrite E in Hperm. simpl in Hperm.
    destruct by_role as [|[r hosts] by_role]; [done|].
    apply Forall_cons in Hall as [[_ Hh] _]. simpl in *.
    destruct hosts as [|h hosts]; [done|].
    by apply Permutation_nil_cons in Hperm.
  - apply create_patch_groups_nonempty. intros Hget%DictFacts.get_Some_elem.
    rewrite Forall_forall in Hall. by destruct (Hall _ Hget).
Qed.

(** X5.  One file is written per region of the roster, in roster order,
    under pairwise distinct names (no file overwrites another), and no file
    is empty. *)
Theorem generate_patch_groups_files (instances : list instance) :
  (generate_patch_groups instances).*1
  = patch_group_filename <$> Dict.keys (get_hosts instances)
  ∧ NoDup (generate_patch_groups instances).*1
  ∧ Forall (λ file, file.2 ≠ []) (generate_patch_groups instances).
Proof.
  destruct (get_hosts_roster_wf instances) as [Hnd Hall].
  assert ((generate_patch_groups instances).*1
          = patch_group_filename <$> Dict.keys (get_hosts instances)) as Hnames.
  { unfold generate_patch_groups, Dict.keys. by rewrite <- !list_fmap_compose. }
  split; [done|]. split.
  - rewrite Hnames. apply NoDup_fmap_2_strong; [|done].
    intros r1 r2 _ _. apply patch_group_filename_inj.
  - unfold generate_patch_groups. apply Forall_fmap.
    eapply Forall_impl; [exact Hall|]. intros [region by_role] [Hne Hwf]. simpl in *.
    apply create_patch_group_files_nonempty. by apply roles_wf_groups.
Qed.

(** X6.  On the roles of any region of the roster, [create_patch_groups]
    returns at least one group, no group without host, and exactly the
    hosts of the region: the empty reserved list that produces empty
    groups cannot come from [get_hosts]. *)
Theorem roster_patch_groups_sound
    (instances : list instance) (region : str) (hosts_by_role : list (str * list str)) :
  (region, hosts_by_role) ∈ get_hosts instances →
  create_patch_groups hosts_by_role ≠ []
  ∧ Forall (λ kg, kg.2 ≠ []) (create_patch_groups hosts_by_role)
  ∧ concat (Dict.values (create_patch_groups hosts_by_role))
    ≡ₚ concat (Dict.values hosts_by_role).
Proof.
  intros Hin. destruct (get_hosts_roster_wf instances) as [_ Hall].
  rewrite Forall_forall in Hall. destruct (Hall _ Hin) as [Hne Hwf].
  by apply roles_wf_groups.
Qed.

Lemma roster_patch_groups_sound_witness :
  let instances :=
    [ {| name := lit "db-1"; labels := [(lit "region", lit "eu"); (lit "role", lit "be-sharddb")] |};
      {| name := lit "web-1"; labels := [(lit "role", lit "web"); (lit "region", lit "eu")] |};
      {| name := lit "tmp"; labels := [(lit "region", lit "eu")] |} ] in
  let hosts_by_role := [(sharddb, [lit "db-1"]); (lit "web", [lit "web-1"])] in
  create_patch_groups hosts_by_role ≠ []
  ∧ Forall (λ kg, kg.2 ≠ []) (create_patch_groups hosts_by_role)
  ∧ concat (Dict.values (create_patch_groups hosts_by_role))
    ≡ₚ concat (Dict.values hosts_by_role).
Proof.
  intros instances hosts_by_role.
  apply (roster_patch_groups_sound instances (lit "eu")).
  decide_by_compute.
Defined.

(** ** The reversal of [get_hosts] seen from the groups *)

Lemma roster_get_get_hosts instances region role :
  roster_get (get_hosts instances) region role
  = entry_of (reverse (name <$> filter (filed_under region role) instances)).
Proof.
  unfold get_hosts. rewrite roster_get_reverse_hosts, roster_get_foldl_bucket.
  destruct (name <$> filter (filed_under region role) instances) as [|h hosts] eqn:E;
    [done|].
  simpl. destruct (reverse (h :: hosts)) eqn:Er; [|done].
  apply (f_equal length) in Er. rewrite length_reverse in Er. done.
Qed.

Lemma region_role_hosts instances region hosts_by_role role :
  Dict.get region (get_hosts instances) = Some hosts_by_role →
  Dict.get role hosts_by_role
  = entry_of (reverse (name <$> filter (filed_under region role) instances)).
Proof.
  intros Hget. rewrite <- roster_get_get_hosts. unfold roster_get. by rewrite Hget.
Qed.

Lemma group_update_mono (k k' : str) (hs : list str) (d : list (str * list str)) h :
  h ∈ default [] (Dict.get k d) →
  h ∈ default [] (Dict.get k (Dict.update [] (λ l, l ++ hs) k' d)).
Proof.
  intros Hh. destruct (decide (k' = k)) as [->|Hne].
  - rewrite DictFacts.get_update_eq. simpl. apply elem_of_app. by left.
  - by rewrite DictFacts.get_update_ne.
Qed.

Lemma group_includes_column hosts_by_role i h :
  h ∈ column i (non_sharddb_roles hosts_by_role) →
  h ∈ default [] (Dict.get (pg (i + 1)) (create_patch_groups hosts_by_role)).
Proof.
  intros Hh. rewrite <- group_round_robin in Hh.
  unfold create_patch_groups, place_sharddb, dd_extend.
  destruct (Dict.get sharddb hosts_by_role); [|done].
  case_decide; auto using group_update_mono.
Qed.

Lemma sharddb_split_get (hosts_by_role : list (str * list str)) (sh : list str) :
  Dict.get sharddb hosts_by_role = Some sh → length sh ≠ 1 →
  let roles := non_sharddb_roles hosts_by_role in
  let mid := length sh `div` 2 in
  Dict.get (lit "pg2") (create_patch_groups hosts_by_role)
  = Some (column 1 roles ++ take mid sh)
  ∧ Dict.get (lit "pg1") (create_patch_groups hosts_by_role)
    = Some (column 0 roles ++ drop mid sh).
Proof.
  intros Hget Hlen roles mid.
  unfold create_patch_groups, place_sharddb, dd_extend. rewrite Hget.
  rewrite decide_False by done. split.
  - rewrite DictFacts.get_update_ne by apply lit_pg1_ne_pg2.
    rewrite DictFacts.get_update_eq, <- pg_2, (group_round_robin _ 1). done.
  - rewrite DictFacts.get_update_eq.
    rewrite DictFacts.get_update_ne by (intros E; by apply lit_pg1_ne_pg2).
    rewrite <- pg_1, (group_round_robin _ 0). done.
Qed.

(** X7.  Seen from the listing: of the [n > 1] instances of the reserved
    role in a region, the last [n // 2] listed are appended to [pg2] and
    the others to [pg1], each part in reverse listing order. *)
Theorem sharddb_split_in_listing_order
    (instances : list instance) (region : str) (hosts_by_role : list (str * list str)) :
  Dict.get region (get_hosts instances) = Some hosts_by_role →
  let names := name <$> filter (filed_under region sharddb) instances in
  let n := length names in
  1 < n →
  let roles := non_sharddb_roles hosts_by_role in
  Dict.get (lit "pg2") (create_patch_groups hosts_by_role)
  = Some (column 1 roles ++ reverse (drop (n - n `div` 2) names))
  ∧ Dict.get (lit "pg1") (create_patch_groups hosts_by_role)
    = Some (column 0 roles ++ reverse (take (n - n `div` 2) names)).
Proof.
  intros Hregion names n Hn roles.
  pose proof (region_role_hosts instances region hosts_by_role sharddb Hregion) as Hsh.
  fold names in Hsh.
  assert (entry_of (reverse names) = Some (reverse names)) as E.
  { destruct (reverse names) eqn:Er; [|done].
    apply (f_equal length) in Er. rewrite length_reverse in Er.
    fold n in Er. simpl in Er. lia. }
  rewrite E in Hsh.
  destruct (sharddb_split_get hosts_by_role (reverse names) Hsh) as [H2 H1].
  { rewrite length_reverse. fold n. lia. }
  rewrite length_reverse, take_reverse in H2. rewrite length_reverse, drop_reverse in H1.
  done.
Qed.

Lemma sharddb_split_in_listing_order_witness :
  let instances :=
    [ {| name := lit "s1"; labels := [(lit "region", lit "eu"); (lit "role", lit "be-sharddb")] |};
      {| name := lit "s2"; labels := [(lit "region", lit "eu"); (lit "role", lit "be-sharddb")] |};
      {| name := lit "w1"; labels := [(lit "region", lit "eu"); (lit "role", lit "web")] |};
      {| name := lit "s3"; labels := [(lit "region", lit "eu"); (lit "role", lit "be-sharddb")] |} ] in
  let hosts_by_role := [(sharddb, [lit "s3"; lit "s2"; lit "s1"]); (lit "web", [lit "w1"])] in
  Dict.get (lit "pg2") (create_patch_groups hosts_by_role) = Some [lit "s3"]
  ∧ Dict.get (lit "pg1") (create_patch_groups hosts_by_role)
    = Some [lit "w1"; lit "s2"; lit "s1"].
Proof.
  intros instances hosts_by_role.
  destruct (sharddb_split_in_listing_order instances (lit "eu") hosts_by_role) as [H2 H1].
  - vm_compute. reflexivity.
  - vm_compute. lia.
  - split; [exact H2 | exact H1].
Defined.

(** X8.  Seen from the listing: the instance of a non-reserved role that is
    listed [i]-th from the end, in its region, is in group [pg(i+1)]; the
    last one listed is in [pg1]. *)
Theorem last_listed_first
    (instances : list instance) (region : str) (hosts_by_role : list (str * list str))
    (role : str) (i : nat) (h : str) :
  Dict.get region (get_hosts instances) = Some hosts_by_role →
  role ≠ sharddb →
  let names := name <$> filter (filed_under region role) instances in
  i < length names →
  names !! (length names - S i) = Some h →
  h ∈ default [] (Dict.get (pg (i + 1)) (create_patch_groups hosts_by_role)).
Proof.
  intros Hregion Hrole names Hi Hh.
  pose proof (region_role_hosts instances region hosts_by_role role Hregion) as Hget.
  fold names in Hget.
  assert (entry_of (reverse names) = Some (reverse names)) as E.
  { destruct (reverse names) eqn:Er; [|done].
    apply (f_equal length) in Er. rewrite length_reverse in Er. simpl in Er. lia. }
  rewrite E in Hget. apply DictFacts.get_Some_elem in Hget.
  apply group_includes_column, column_elem.
  exists role, (reverse names). split.
  - unfold non_sharddb_roles. by apply list_elem_of_filter.
  - by rewrite reverse_lookup.
Qed.

Lemma last_listed_first_witness :
  let instances :=
    [ {| name := lit "w1"; labels := [(lit "region", lit "eu"); (lit "role", lit "web")] |};
      {| name := lit "d1"; labels := [(lit "region", lit "eu"); (lit "role", lit "db")] |};
      {| name := lit "w2"; labels := [(lit "region", lit "eu"); (lit "role", lit "web")] |} ] in
  let hosts_by_role := [(lit "web", [lit "w2"; lit "w1"]); (lit "db", [lit "d1"])] in
  lit "w2" ∈ default [] (Dict.get (pg (0 + 1)) (create_patch_groups hosts_by_role)).
Proof.
  intros instances hosts_by_role.
  apply (last_listed_first instances (lit "eu") hosts_by_role (lit "web") 0 (lit "w2")).
  - vm_compute. reflexivity.
  - decide_by_compute.
  - vm_compute. lia.
  - vm_compute. reflexivity.
Defined.

(** ** The playbook runs of [run_normal_mode] *)

Lemma host_line_matches_none (patch_groups : list (str * list str)) :
  Forall (λ host, findall pg_pattern (host_line host) = [])
    (concat (Dict.values patch_groups)) →
  host_line_matches patch_groups = 0.
Proof.
  unfold host_line_matches. induction 1 as [|host hosts Hhost _ IH]; [done|].
  csimpl. unfold count_patch_groups at 1. by rewrite Hhost.
Qed.

Lemma keys_named (patch_groups : list (str * list str)) K :
  Dict.keys patch_groups ≡ₚ pg <$> seq 1 K →
  Forall (λ gh, ∃ n, gh.1 = pg n) patch_groups ∧ length patch_groups = K.
Proof.
  intros Hkeys. split.
  - apply Forall_forall. intros [k hosts] Hin. simpl.
    assert (k ∈ Dict.keys patch_groups) as Hk.
    { unfold Dict.keys. apply list_elem_of_fmap. by exists (k, hosts). }
    rewrite Hkeys in Hk. apply list_elem_of_fmap in Hk as (n & -> & _). by exists n.
  - apply Permutation_length in Hkeys. unfold Dict.keys in Hkeys.
    by rewrite !length_fmap, length_seq in Hkeys.
Qed.

Example no_patch_groups_message_length : length no_patch_groups_message = 198.
Proof. reflexivity. Qed.

Example run_generated_no_file :
  run_generated None (lit "us-east1") (lit "vars") None None
  = UnboundLocalError [lit "File does not exist: patch-groups-us-east1.yaml"].
Proof. reflexivity. Qed.

Example run_generated_grouplist :
  run_generated (Some (lit "'pg2'")) (lit "us-east1") (lit "vars")
    (Some {| is_file := true; file_content := lit "pg1:" ++ [nl];
             readable := true; owner_read := true |}) None
  = Done [lit "File 'patch-groups-us-east1.yaml' has been moved to vars"]
      (lit "vars/patch-groups-us-east1.yaml", [lit "pg2"]).
Proof. vm_compute. reflexivity. Qed.

(** X9.  Without [-i] and [-g], when the path of the region holds the
    readable regular file that [create_patch_group_files] wrote for the
    groups of [create_patch_groups], the role dictionary has distinct keys
    and no line written for a host holds an occurrence of [pg<digits>:]:
    with at least one group and a move that succeeds, the driver prints that
    the file was moved and runs the playbook on the moved file once for each
    group and for nothing else, in the order [pg1, pg2, ...]; when the move
    fails it prints the error and exits with code 1 without any run; with no
    group the file is empty, [validate_file] prints so and the driver stops
    on [UnboundLocalError] without any run. *)
Theorem run_generated_each_group (hosts_by_role : list (str * list str))
    (region vars_dir : str) (e : path_entry) :
  NoDup (Dict.keys hosts_by_role) →
  Forall (λ host, findall pg_pattern (host_line host) = [])
    (concat (Dict.values hosts_by_role)) →
  let patch_groups := create_patch_groups hosts_by_role in
  let patch_group_file := patch_group_filename region in
  is_file e = true → readable e = true → owner_read e = true →
  file_content e = create_patch_group_files patch_groups →
  (patch_groups ≠ [] →
     run_generated None region vars_dir (Some e) None
     = Done [lit "File '" ++ patch_group_file ++ lit "' has been moved to " ++ vars_dir]
         (path_join vars_dir patch_group_file, patchgroups (length patch_groups))
     ∧ patchgroups (length patch_groups) ≡ₚ Dict.keys patch_groups
     ∧ ∀ err, run_generated None region vars_dir (Some e) (Some err)
              = Exited [lit "Error moving patch group file: " ++ err] 1)
  ∧ (patch_groups = [] →
     ∀ move_error, run_generated None region vars_dir (Some e) move_error
                   = UnboundLocalError [lit "File is empty: " ++ patch_group_file]).
Proof.
  intros Hnd Hhosts patch_groups patch_group_file Hfile Hread Howner Hcontent.
  pose proof (create_patch_groups_keys hosts_by_role) as Hkeys. fold patch_groups in Hkeys.
  destruct (keys_named _ _ Hkeys) as [Hnamed Hlen].
  unfold run_generated, generate_and_move_patch_groups, validate_file.
  rewrite Hfile, Hread, Howner, Hcontent. cbn [negb from_option].
  fold patch_group_file. split.
  - intros Hne. apply create_patch_group_files_nonempty in Hne.
    rewrite bool_decide_eq_false_2
      by (by destruct (create_patch_group_files patch_groups)).
    cbn [app]. split; [|split; [|done]].
    + do 3 f_equal. rewrite Hcontent.
      rewrite count_patch_groups_named by done.
      rewrite host_line_matches_none; [lia|].
      unfold patch_groups. by rewrite (create_patch_groups_Permutation _ Hnd).
    + unfold patchgroups. by rewrite Hlen, Hkeys.
  - intros -> move_error. done.
Qed.

Lemma run_generated_each_group_witness :
  let hosts_by_role :=
    [(lit "web", [lit "a"; lit "b"; lit "c"]); (sharddb, [lit "h1"; lit "h2"])] in
  let e := {| is_file := true;
              file_content := create_patch_group_files (create_patch_groups hosts_by_role);
              readable := true; owner_read := true |} in
  run_generated None (lit "us-east1") (lit "/srv/vars") (Some e) None
  = Done [lit "File 'patch-groups-us-east1.yaml' has been moved to /srv/vars"]
      (lit "/srv/vars/patch-groups-us-east1.yaml", [lit "pg1"; lit "pg2"; lit "pg3"]).
Proof.
  intros hosts_by_role e.
  destruct (run_generated_each_group hosts_by_role (lit "us-east1") (lit "/srv/vars") e)
    as [H _].
  - decide_by_compute.
  - vm_compute. repeat constructor.
  - reflexivity.
  - reflexivity.
  - reflexivity.
  - reflexivity.
  - destruct H as [H _]; [vm_compute; discriminate|]. exact H.
Defined.


(** ** [generate_package_yaml]: what is written *)

Lemma strip_idemp s : strip (strip s) = strip s.
Proof.
  unfold strip at 2 3. destruct (lstrip_head s) as [->|(c & t & -> & Hc)]; [done|].
  destruct (rstrip_head c t Hc) as [r Hr]. rewrite Hr.
  unfold strip. cbn [lstrip]. rewrite Hc. by rewrite <- Hr, rstrip_idemp.
Qed.

Lemma split_nonempty sep s : split sep s ≠ [].
Proof.
  destruct s as [|c s]; [done|]. simpl.
  case_bool_decide; [done|]. by destruct (split sep s).
Qed.

Lemma fmap_fixed {A} (f : A → A) (l : list A) :
  Forall (λ x, f x = x) l → f <$> l = l.
Proof. induction 1 as [|x l Hx _ IH]; [done|]. csimpl. by rewrite Hx, IH. Qed.

(** X11.  Whatever the iteration order of the set, the list written is not
    empty, holds exactly the stripped pieces of the comma-separated input,
    each written name is free of surrounding blanks, and there are at most
    as many names as pieces. *)
Theorem generate_package_yaml_written (packages : str) (written : list str) :
  generate_package_yaml packages written →
  written ≠ []
  ∧ (∀ x, x ∈ written ↔ ∃ piece, piece ∈ split "," packages ∧ x = strip piece)
  ∧ Forall (λ x, strip x = x) written
  ∧ length written ≤ length (split "," packages).
Proof.
  intros (order & [Hnd Hel] & ->).
  split; [|split; [|split]].
  - intros E. apply fmap_nil_inv in E. subst order.
    destruct (split "," packages) as [|p ps] eqn:Es; [by apply split_nonempty in Es|].
    assert (p ∈ []) as Hp by (apply Hel; rewrite elem_of_cons; by left).
    by apply elem_of_nil in Hp.
  - intros x. rewrite list_elem_of_fmap. split.
    + intros (p & -> & Hp). exists p. by rewrite <- Hel.
    + intros (p & Hp & ->). exists p. by rewrite Hel.
  - apply Forall_fmap, Forall_forall. intros p _. apply strip_idemp.
  - rewrite length_fmap. apply submseteq_length, NoDup_submseteq; [done|].
    intros x. by rewrite Hel.
Qed.

Lemma generate_package_yaml_written_witness :
  let written := [lit "vim"; lit "curl"] in
  written ≠ []
  ∧ (∀ x, x ∈ written ↔ ∃ piece, piece ∈ split "," (lit "vim, curl") ∧ x = strip piece)
  ∧ Forall (λ x, strip x = x) written
  ∧ length written ≤ length (split "," (lit "vim, curl")).
Proof.
  apply generate_package_yaml_written.
  exists [lit "vim"; lit " curl"]. split; [|vm_compute; reflexivity].
  assert (split "," (lit "vim, curl") = [lit "vim"; lit " curl"]) as ->
    by (vm_compute; reflexivity).
  split; [decide_by_compute | done].
Defined.

(** X12.  When no piece of the input has surrounding blanks (as in
    [vim,curl,vim]), the names written are pairwise distinct and are
    exactly the pieces. *)
Theorem generate_package_yaml_distinct (packages : str) (written : list str) :
  Forall (λ piece, strip piece = piece) (split "," packages) →
  generate_package_yaml packages written →
  NoDup written ∧ (∀ x, x ∈ written ↔ x ∈ split "," packages).
Proof.
  intros Hclean (order & [Hnd Hel] & ->).
  rewrite fmap_fixed; [done|].
  apply Forall_forall. intros x Hx%Hel. rewrite Forall_forall in Hclean. auto.
Qed.

Lemma generate_package_yaml_distinct_witness :
  let written := [lit "curl"; lit "vim"] in
  NoDup written ∧ (∀ x, x ∈ written ↔ x ∈ split "," (lit "vim,curl,vim")).
Proof.
  apply generate_package_yaml_distinct.
  - decide_by_compute.
  - exists [lit "curl"; lit "vim"]. split; [|vm_compute; reflexivity].
    assert (split "," (lit "vim,curl,vim") = [lit "vim"; lit "curl"; lit "vim"]) as ->
      by (vm_compute; reflexivity).
    split; [decide_by_compute|]. intros x. rewrite !elem_of_cons, !elem_of_nil. tauto.
Defined.

(** ** The skip file over several calls, and [process_retry_file] *)

Lemma strip_snoc_space x w : is_space w = true → strip (x ++ [w]) = strip x.
Proof.
  intros Hw. unfold strip. induction x as [|c x IH]; simpl.
  - by rewrite Hw.
  - destruct (is_space c); [done|].
    by rewrite app_comm_cons, rstrip_snoc_space.
Qed.

Lemma elem_of_lstrip c s : c ∈ lstrip s → c ∈ s.
Proof.
  induction s as [|d s IH]; [done|]. simpl.
  destruct (is_space d); [|done]. intros ?%IH. rewrite elem_of_cons. by right.
Qed.

Lemma elem_of_rstrip c s : c ∈ rstrip s → c ∈ s.
Proof.
  induction s as [|d s IH]; [done|]. simpl.
  destruct (rstrip s) as [|e r].
  - destruct (is_space d); [by intros ?%elem_of_nil|].
    intros ->%list_elem_of_singleton. rewrite elem_of_cons. by left.
  - intros [->|H]%elem_of_cons; rewrite elem_of_cons; [by left | right; by apply IH].
Qed.

Lemma elem_of_strip c s : c ∈ strip s → c ∈ s.
Proof. unfold strip. by intros ?%elem_of_rstrip%elem_of_lstrip. Qed.

Lemma newlines_from_no_cr after_cr s : cr ∉ newlines_from after_cr s.
Proof.
  revert after_cr. induction s as [|c s IH]; intros after_cr; simpl.
  - apply not_elem_of_nil.
  - case_bool_decide as Hcr.
    + rewrite not_elem_of_cons. split; [done | apply IH].
    + case_bool_decide; [destruct after_cr|]; rewrite ?not_elem_of_cons; auto.
Qed.

(** A line handed out by the file iterator: a body without line feed, and
    the line feed when the line is terminated. *)
Lemma readlines_body s l :
  l ∈ readlines s →
  ∃ body, (l = body ++ [nl] ∨ l = body) ∧ nl ∉ body ∧ ∀ c, c ∈ body → c ∈ s.
Proof.
  revert l. induction s as [|c s IH]; intros l; simpl; [by intros ?%elem_of_nil|].
  case_bool_decide as Hnl.
  - intros [->|Hl]%elem_of_cons.
    + exists []. split; [by left|]. split; [apply not_elem_of_nil | by intros ? ?%elem_of_nil].
    + destruct (IH l Hl) as (body & ? & ? & Hsub). exists body.
      split; [done|]. split; [done|]. intros d ?. rewrite elem_of_cons. auto.
  - destruct (readlines s) as [|l0 ls] eqn:E.
    + intros ->%list_elem_of_singleton. exists [c].
      split; [by right|]. split.
      * intros Hc%list_elem_of_singleton. congruence.
      * intros d ->%list_elem_of_singleton. rewrite elem_of_cons. by left.
    + intros [->|Hl]%elem_of_cons.
      * destruct (IH l0) as (body & Hb & Hnlb & Hsub); [rewrite elem_of_cons; by left|].
        exists (c :: body). split; [destruct Hb as [->| ->]; [by left | by right]|].
        split; [rewrite not_elem_of_cons; split; [congruence | done]|].
        intros d [->|?]%elem_of_cons; rewrite elem_of_cons; auto.
      * destruct (IH l) as (body & ? & ? & Hsub); [rewrite elem_of_cons; by right|].
        exists body. split; [done|]. split; [done|].
        intros d ?. rewrite elem_of_cons. auto.
Qed.

(** The stripped lines of any file are stripped, one-line names. *)
Lemma stripped_lines_clean text :
  Forall (λ h, (nl ∉ h) ∧ (cr ∉ h) ∧ strip h = h) (stripped_lines text).
Proof.
  unfold stripped_lines, universal_newlines. apply Forall_fmap, Forall_forall.
  intros l (body & Hl & Hnl & Hsub)%readlines_body. simpl.
  assert (strip l = strip body) as ->.
  { destruct Hl as [->| ->]; [by apply strip_snoc_space | done]. }
  split; [|split; [|apply strip_idemp]].
  - by intros ?%elem_of_strip.
  - intros ?%elem_of_strip%Hsub. by eapply newlines_from_no_cr.
Qed.

Lemma append_skip_file_lines content hostnames :
  ends_nl (default [] content) →
  Forall (λ hostname, (nl ∉ strip hostname) ∧ (cr ∉ strip hostname)) hostnames →
  stripped_lines (append_skip_file content hostnames)
  = stripped_lines (default [] content)
    ++ skip_written (read_skip_file content) hostnames.
Proof.
  intros Hends Hclean. rewrite append_skip_file_written.
  apply stripped_lines_append; [done|].
  destruct (skip_written_spec (read_skip_file content) hostnames) as (_ & Hfresh & _).
  apply Forall_forall. intros h (_ & hostname & Hin & ->)%Hfresh.
  rewrite Forall_forall in Hclean. destruct (Hclean hostname Hin).
  repeat split; [done | done | by exists hostname].
Qed.

Lemma append_skip_file_covers content hostnames hostname :
  ends_nl (default [] content) →
  Forall (λ hostname, (nl ∉ strip hostname) ∧ (cr ∉ strip hostname)) hostnames →
  hostname ∈ hostnames →
  strip hostname ∈ stripped_lines (append_skip_file content hostnames).
Proof.
  intros Hends Hclean Hin. rewrite append_skip_file_lines, elem_of_app by done.
  destruct (skip_written_spec (read_skip_file content) hostnames) as (_ & _ & Hcov).
  destruct (Hcov hostname Hin) as [Hk|Hw]; [left | by right].
  rewrite read_skip_file_default in Hk. by apply elem_of_list_to_set in Hk.
Qed.

Lemma skip_written_app (existing : gset str) (hs1 hs2 : list str) :
  skip_written existing (hs1 ++ hs2)
  = skip_written existing hs1
    ++ skip_written (list_to_set (skip_written existing hs1) ∪ existing) hs2.
Proof.
  revert existing. induction hs1 as [|h hs1 IH]; intros existing.
  - simpl. f_equal. set_solver.
  - cbn [app skip_written]. case_decide.
    + apply IH.
    + rewrite IH. cbn [app]. do 3 f_equal. set_solver.
Qed.

(** X13.  Two calls in a row amount to one call with both lists: on a file
    that is absent, empty or ends with a line feed, appending [hs1] and
    then [hs2] leaves the same file as appending [hs1 ++ hs2], provided no
    stripped name of [hs1] contains a line break. *)
Theorem append_skip_file_twice (content : option str) (hs1 hs2 : list str) :
  ends_nl (default [] content) →
  Forall (λ hostname, (nl ∉ strip hostname) ∧ (cr ∉ strip hostname)) hs1 →
  append_skip_file (Some (append_skip_file content hs1)) hs2
  = append_skip_file content (hs1 ++ hs2).
Proof.
  intros Hends Hclean.
  assert (read_skip_file (Some (append_skip_file content hs1))
          = list_to_set (skip_written (read_skip_file content) hs1)
            ∪ read_skip_file content) as Hread.
  { cbn [read_skip_file]. rewrite append_skip_file_lines by done.
    rewrite list_to_set_app_L, <- read_skip_file_default. apply union_comm_L. }
  rewrite (append_skip_file_written (Some (append_skip_file content hs1)) hs2), Hread.
  cbn [default].
  rewrite (append_skip_file_written content (hs1 ++ hs2)).
  rewrite skip_written_app, fmap_app, concat_app, app_assoc.
  by rewrite <- (append_skip_file_written content hs1).
Qed.

Lemma append_skip_file_twice_witness :
  append_skip_file (Some (append_skip_file None [lit "a"; lit " b"])) [lit "b "; lit "c"]
  = append_skip_file None ([lit "a"; lit " b"] ++ [lit "b "; lit "c"]).
Proof.
  apply append_skip_file_twice.
  - by left.
  - decide_by_compute.
Defined.

Lemma retry_hostlist_Forall (text : str) :
  Forall (λ h, h ≠ [] ∧ strip h = h ∧ (nl ∉ h) ∧ (cr ∉ h)) (retry_hostlist text).
Proof.
  unfold retry_hostlist. apply Forall_forall. intros h.
  rewrite list_elem_of_filter. intros [Hne Hin].
  pose proof (stripped_lines_clean text) as Hclean. rewrite Forall_forall in Hclean.
  destruct (Hclean h Hin) as (? & ? & ?). done.
Qed.

Lemma readlines_no_nl (last : str) :
  nl ∉ last → readlines last = if decide (last = []) then [] else [last].
Proof.
  induction last as [|c last IH]; [done|].
  rewrite not_elem_of_cons. intros [Hc Hlast]. simpl.
  rewrite bool_decide_eq_false_2 by done. rewrite IH by done.
  by case_decide; [subst|].
Qed.

(** The lines of a text made of one-line pieces, each ended by a line feed
    except the last. *)
Lemma readlines_lines_last (lines : list str) (last : str) :
  Forall (λ l, nl ∉ l) lines → nl ∉ last →
  readlines (concat ((λ l, l ++ [nl]) <$> lines) ++ last)
  = ((λ l, l ++ [nl]) <$> lines) ++ (if decide (last = []) then [] else [last]).
Proof.
  intros Hlines Hlast. induction Hlines as [|l lines Hl _ IH]; csimpl.
  - by apply readlines_no_nl.
  - rewrite <- !app_assoc. cbn [app]. by rewrite readlines_app, readlines_line, IH.
Qed.

Lemma filter_nonempty_strip (lines : list str) :
  filter (λ h, h ≠ []) (strip <$> lines)
  = strip <$> filter (λ line, strip line ≠ []) lines.
Proof.
  induction lines as [|l lines IH]; [done|]. csimpl.
  destruct (decide (strip l ≠ [])) as [Hl|Hl].
  - rewrite !filter_cons_True by done. csimpl. by rewrite IH.
  - by rewrite !filter_cons_False.
Qed.

(** X14.  The hosts [process_retry_file] reads are the stripped lines of the
    retry file that are not blank, in file order and with their repetitions:
    the list is [line.strip()] for each line of the file whose stripped form
    is not empty, and for a file whose lines hold no line feed or carriage
    return, each ended by a line feed except possibly the last, it is the
    list of the stripped lines that are not empty.  Each host is non-empty,
    free of surrounding blanks and of line breaks, so each is written to the
    skip file as it is. *)
Theorem retry_hostlist_clean (text : str) :
  retry_hostlist text
  = strip <$> filter (λ line, strip line ≠ []) (readlines (universal_newlines text))
  ∧ (∀ lines last,
       Forall (λ l, (nl ∉ l) ∧ (cr ∉ l)) (lines ++ [last]) →
       text = concat ((λ l, l ++ [nl]) <$> lines) ++ last →
       retry_hostlist text = filter (λ h, h ≠ []) (strip <$> (lines ++ [last])))
  ∧ Forall (λ h, h ≠ [] ∧ strip h = h ∧ (nl ∉ h) ∧ (cr ∉ h)) (retry_hostlist text).
Proof.
  split; [|split; [|apply retry_hostlist_Forall]].
  - unfold retry_hostlist, stripped_lines. apply filter_nonempty_strip.
  - intros lines last Hclean ->. apply Forall_app in Hclean as [Hlines Hlast].
    apply Forall_singleton in Hlast as [Hnl Hcr].
    unfold retry_hostlist, stripped_lines, universal_newlines.
    rewrite newlines_no_cr.
    + rewrite readlines_lines_last; [|by eapply Forall_impl; [exact Hlines|]; intros l [? _]|done].
      rewrite !fmap_app, !filter_app, <- list_fmap_compose. f_equal.
      * f_equal. apply list_fmap_ext. intros _ l _. simpl. by apply strip_snoc_space.
      * case_decide as Hl; [by subst last|done].
    + rewrite elem_of_app. intros [Hin|Hin]; [|done].
      revert Hin. clear Hnl Hcr.
      induction Hlines as [|l lines [_ Hl] _ IH]; csimpl; [by intros ?%elem_of_nil|].
      rewrite !elem_of_app, list_elem_of_singleton. intros [[?|?]|?]; [done | done | auto].
Qed.

Example retry_hostlist_example :
  retry_hostlist (lit "web-1" ++ [nl] ++ lit "  " ++ [nl] ++ lit " db-1 " ++ [cr; nl]
                  ++ lit "web-1" ++ [nl] ++ [nl] ++ lit "db-2")
  = [lit "web-1"; lit "db-1"; lit "web-1"; lit "db-2"].
Proof. vm_compute. reflexivity. Qed.

(** X15.  After [process_retry_file], every host it returns is a line of
    the skip-role file (which must have been absent, empty or ended by a
    line feed); without any host to add the file is left as it was, not
    even created; and processing the same retry file again changes
    nothing. *)
Theorem process_retry_file_skips (retry : str) (skiprole : option str) :
  ends_nl (default [] skiprole) →
  let result := process_retry_file (Some retry) skiprole in
  (∀ h, h ∈ result.1 → h ∈ stripped_lines (default [] result.2))
  ∧ (result.1 = [] → result.2 = skiprole)
  ∧ process_retry_file (Some retry) result.2 = result.
Proof.
  intros Hends result. unfold result, process_retry_file.
  pose proof (retry_hostlist_Forall retry) as Hclean.
  assert (Forall (λ hostname, (nl ∉ strip hostname) ∧ (cr ∉ strip hostname))
            (retry_hostlist retry)) as Hclean'.
  { eapply Forall_impl; [exact Hclean|]. intros h (_ & -> & ? & ?). done. }
  assert (∀ h, h ∈ retry_hostlist retry →
               h ∈ stripped_lines (append_skip_file skiprole (retry_hostlist retry))) as Hcov.
  { intros h Hh. rewrite Forall_forall in Hclean. destruct (Hclean h Hh) as (_ & <- & _).
    by apply append_skip_file_covers. }
  destruct (retry_hostlist retry) as [|h0 hosts] eqn:E; cbn [fst snd].
  - split; [by intros h ?%elem_of_nil|]. done.
  - split; [exact Hcov|]. split; [done|]. do 2 f_equal.
    rewrite append_skip_file_written. cbn [default].
    rewrite skip_written_known; [by rewrite app_nil_r|].
    intros hostname Hin. cbn [read_skip_file]. apply elem_of_list_to_set.
    rewrite Forall_forall in Hclean. destruct (Hclean hostname Hin) as (_ & -> & _).
    by apply Hcov.
Qed.

Lemma process_retry_file_skips_witness :
  let retry := lit "web-1" ++ [nl; nl] ++ lit " db-2 " ++ [nl] in
  let result := process_retry_file (Some retry) (Some (lit "db-2" ++ [nl])) in
  result = ([lit "web-1"; lit "db-2"], Some (lit "db-2" ++ [nl] ++ lit "web-1" ++ [nl]))
  ∧ (∀ h, h ∈ result.1 → h ∈ stripped_lines (default [] result.2)).
Proof.
  intros retry result.
  destruct (process_retry_file_skips retry (Some (lit "db-2" ++ [nl]))) as (H & _).
  - right. by exists (lit "db-2").
  - split; [vm_compute; reflexivity | exact H].
Defined.

(** ** [get_exvars] and [get_creds] *)

Example split_ws_example :
  split_ws (lit "  --user deploy   --private-key /home/u/.ssh/deploy ")
  = [lit "--user"; lit "deploy"; lit "--private-key"; lit "/home/u/.ssh/deploy"].
Proof. vm_compute. reflexivity. Qed.

(** X16.  The mode flags are ranked: [--pkgcheck] wins over both upgrade
    flags and [--upgradepkgsonly] over [--upgrade].  The variables returned
    ask for an upgrade exactly when [--pkgcheck] is off and one of the
    upgrade flags is on, forbid the reboot exactly when [--pkgcheck] is off
    and [--upgradepkgsonly] is on, and the warning is printed exactly when
    [--pkgcheck] comes with an upgrade flag. *)
Theorem get_exvars_modes (pkgcheck upgrade upgradepkgsonly : bool) :
  let exvars := (get_exvars pkgcheck upgrade upgradepkgsonly).1 in
  let printed := (get_exvars pkgcheck upgrade upgradepkgsonly).2 in
  contains exvars (lit "run_upgrade: true") = negb pkgcheck && (upgrade || upgradepkgsonly)
  ∧ contains exvars (lit "reboot_if_required: false") = negb pkgcheck && upgradepkgsonly
  ∧ contains exvars (lit "run_pkgcheck: true") = pkgcheck
  ∧ contains exvars (lit "run_precheck: true") = negb pkgcheck
  ∧ (Exists (λ line, startswith line (lit "Warning:")) printed
     ↔ pkgcheck && (upgrade || upgradepkgsonly)).
Proof.
  destruct pkgcheck, upgrade, upgradepkgsonly; cbv zeta;
    (split; [vm_compute; reflexivity|]); (split; [vm_compute; reflexivity|]);
    (split; [vm_compute; reflexivity|]); (split; [vm_compute; reflexivity|]);
    cbn [get_exvars orb andb snd];
    (split; [try (intros _; exact I); intros H | try done; intros _]).
  all: try (apply Exists_cons in H as [H|H%Exists_nil]; [|done]; vm_compute in H; done).
  all: try (by apply Exists_nil in H).
  all: try (apply Exists_cons; left; vm_compute; exact I).
Qed.

Lemma split_ws_space c s : is_space c = true → split_ws (c :: s) = split_ws s.
Proof. intros Hc. simpl. by rewrite Hc. Qed.

Lemma split_ws_word_then w c rest :
  is_word w = true → is_space c = true →
  split_ws (w ++ c :: rest) = w :: split_ws rest.
Proof.
  unfold is_word. intros [Hne%bool_decide_eq_true Hw]%andb_prop Hc.
  induction w as [|a w IH]; [done|].
  cbn [forallb] in Hw. apply andb_prop in Hw as [Ha%negb_true_iff Hw].
  destruct w as [|b w].
  - cbn [app split_ws]. rewrite Ha, Hc. done.
  - specialize (IH ltac:(done) Hw).
    cbn [forallb] in Hw. apply andb_prop in Hw as [Hb%negb_true_iff _].
    change ((a :: b :: w) ++ c :: rest) with (a :: (b :: w) ++ c :: rest).
    remember ((b :: w) ++ c :: rest) as s eqn:Es.
    cbn [split_ws]. rewrite Ha. rewrite Es at 1. cbn [app]. rewrite Hb.
    rewrite IH. done.
Qed.

Lemma split_ws_word w : is_word w = true → split_ws w = [w].
Proof.
  unfold is_word. intros [Hne%bool_decide_eq_true Hw]%andb_prop.
  induction w as [|a w IH]; [done|].
  cbn [forallb] in Hw. apply andb_prop in Hw as [Ha%negb_true_iff Hw].
  destruct w as [|b w].
  - cbn [split_ws]. by rewrite Ha.
  - specialize (IH ltac:(done) Hw).
    cbn [forallb] in Hw. apply andb_prop in Hw as [Hb%negb_true_iff _].
    remember (b :: w) as s eqn:Es.
    cbn [split_ws]. rewrite Ha. rewrite Es at 1. rewrite Hb, IH. done.
Qed.

Lemma is_word_app w v :
  forallb (λ c, negb (is_space c)) w = true → is_word v = true → is_word (w ++ v) = true.
Proof.
  unfold is_word. intros Hw [Hne%bool_decide_eq_true Hv]%andb_prop.
  apply andb_true_intro. split.
  - apply bool_decide_eq_true. by destruct w, v.
  - rewrite forallb_app. by rewrite Hw, Hv.
Qed.

Lemma private_key_word home_dir :
  forallb (λ c, negb (is_space c)) home_dir = true →
  is_word (path_join (path_join home_dir (lit ".ssh")) (lit "deploy")) = true.
Proof.
  intros Hhome.
  assert (∀ a b, forallb (λ c, negb (is_space c)) a = true → is_word b = true →
                 is_word (path_join a b) = true) as Hjoin.
  { intros a b Ha Hb. unfold path_join. destruct (last a); [|done].
    case_bool_decide; [by apply is_word_app|].
    apply is_word_app; [done|]. by apply (is_word_app (lit "/")). }
  apply Hjoin; [|done].
  specialize (Hjoin home_dir (lit ".ssh") Hhome eq_refl).
  unfold is_word in Hjoin. by apply andb_prop in Hjoin as [_ ?].
Qed.

(** X17.  The credential options reach the playbook command as separate
    arguments ([*creds.split()]): none with [--nocreds], which wins over
    the other flags; [-k] with [--askpass], which wins over
    [--askpassbecome]; [-kK] with [--askpassbecome]; otherwise [--user],
    the user, [--private-key] and the key path under [~/.ssh], as four
    arguments when the user and the home directory hold no whitespace.
    When [DEPLOY] is not set, the user passed is the word [None]. *)
Theorem get_creds_arguments :
  (∀ askpass askpassbecome deploy home_dir,
     split_ws (get_creds true askpass askpassbecome deploy home_dir) = [])
  ∧ (∀ askpassbecome deploy home_dir,
       split_ws (get_creds false true askpassbecome deploy home_dir) = [lit "-k"])
  ∧ (∀ deploy home_dir,
       split_ws (get_creds false false true deploy home_dir) = [lit "-kK"])
  ∧ (∀ user home_dir,
       is_word user = true →
       forallb (λ c, negb (is_space c)) home_dir = true →
       split_ws (get_creds false false false (Some user) home_dir)
       = [lit "--user"; user; lit "--private-key";
          path_join (path_join home_dir (lit ".ssh")) (lit "deploy")])
  ∧ (∀ home_dir,
       forallb (λ c, negb (is_space c)) home_dir = true →
       split_ws (get_creds false false false None home_dir)
       = [lit "--user"; lit "None"; lit "--private-key";
          path_join (path_join home_dir (lit ".ssh")) (lit "deploy")]).
Proof.
  assert (∀ user home_dir,
            is_word user = true →
            forallb (λ c, negb (is_space c)) home_dir = true →
            split_ws (lit "--user " ++ user ++ lit " --private-key "
                      ++ path_join (path_join home_dir (lit ".ssh")) (lit "deploy"))
            = [lit "--user"; user; lit "--private-key";
               path_join (path_join home_dir (lit ".ssh")) (lit "deploy")]) as Hdefault.
  { intros user home_dir Hu Hh.
    change (lit "--user " ++ ?s) with (lit "--user" ++ " " :: s).
    rewrite split_ws_word_then by done.
    change (user ++ lit " --private-key " ++ ?s)
      with (user ++ " " :: lit "--private-key" ++ " " :: s).
    rewrite split_ws_word_then by done.
    rewrite split_ws_word_then by done.
    by rewrite split_ws_word by by apply private_key_word. }
  split; [done|]. split; [done|]. split; [done|]. split.
  - intros user home_dir Hu Hh. by apply Hdefault.
  - intros home_dir Hh. by apply (Hdefault (lit "None")).
Qed.

(** ** gcs_upload.py: the bucket of a bucket path *)

Lemma split_no_sep sep a : sep ∉ a → split sep a = [a].
Proof.
  induction a as [|c a IH]; [done|]. rewrite not_elem_of_cons. intros [Hc Ha].
  simpl. rewrite bool_decide_eq_false_2 by congruence. by rewrite IH.
Qed.

Lemma split_app_sep sep a b :
  sep ∉ a → split sep (a ++ sep :: b) = a :: split sep b.
Proof.
  induction a as [|c a IH].
  - intros _. simpl. by rewrite bool_decide_eq_true_2.
  - rewrite not_elem_of_cons. intros [Hc Ha].
    simpl. rewrite bool_decide_eq_false_2 by congruence. by rewrite IH.
Qed.

Lemma length_split sep s :
  length (split sep s) = S (length (filter (λ c, c = sep) s)).
Proof.
  induction s as [|c s IH]; [done|]. simpl. case_bool_decide as Hc.
  - rewrite filter_cons_True by done. simpl. by rewrite IH.
  - rewrite filter_cons_False by done. rewrite <- IH.
    destruct (split sep s) eqn:E; [|done]. by apply split_nonempty in E.
Qed.

(** X18.  For a path made of a scheme piece, a second piece and a bucket
    name separated by slashes, with or without an object path after the
    bucket, the bucket that is validated is the first piece, two slashes
    and the third piece; the second piece (empty in [gs://bucket/...]) is
    not looked at. *)
Theorem bucket_root_of_path (scheme middle bucket tail : str) :
  "/" ∉ scheme → "/" ∉ middle → "/" ∉ bucket →
  tail = [] ∨ (∃ object_path, tail = "/" :: object_path) →
  bucket_root (scheme ++ "/" :: middle ++ "/" :: bucket ++ tail)
  = Some (scheme ++ lit "//" ++ bucket).
Proof.
  intros Hs Hm Hb Htail. unfold bucket_root.
  rewrite split_app_sep, split_app_sep by done.
  destruct Htail as [->|[object_path ->]].
  - by rewrite app_nil_r, split_no_sep.
  - by rewrite split_app_sep.
Qed.

Lemma bucket_root_of_path_witness :
  bucket_root (lit "gs://my-bucket/path/to/destination") = Some (lit "gs://my-bucket").
Proof.
  apply (bucket_root_of_path (lit "gs:") [] (lit "my-bucket") (lit "/path/to/destination")).
  - decide_by_compute.
  - decide_by_compute.
  - decide_by_compute.
  - right. by exists (lit "path/to/destination").
Defined.

(** X19.  The subscript [[2]] raises [IndexError] exactly for the bucket
    paths with fewer than two slashes (a bare bucket name, for one): such
    a call fails before any bucket is validated. *)
Theorem bucket_root_index_error (bucket_path : str) :
  bucket_root bucket_path = None
  ↔ length (filter (λ c, c = "/") bucket_path) < 2.
Proof.
  pose proof (length_split "/" bucket_path) as Hlen. unfold bucket_root.
  destruct (split "/" bucket_path) as [|x [|y [|z l]]]; simpl in Hlen.
  - lia.
  - split; [lia | done].
  - split; [lia | done].
  - split; [done | lia].
Qed.
